(** * Spark: translation surfaces (main window and quick popup)

    A shallow embedding of the React components of the Spark desktop
    translator:

    - [App]      : the main window, [src/src/App.tsx];
    - [Popup]    : the quick popup, [src/unnamed/part_002];
    - [PlainApp] : the main window without model selection,
                   [src/unnamed/part_006].

    Each event handler is a function from the component state and the
    webview environment (timers, clock, [localStorage], the trace of
    [invoke]/[emit] calls) to the new state and environment.  An [async]
    handler is split at its [await]: the part that runs synchronously,
    and the continuation run when the awaited promise settles.  A
    handler sees the state of the latest render, and the state updates
    it queues are applied in order.

    Left out, as they change nothing the handlers read: logging, the
    [dark] class of the document, [preventDefault], the clipboard, the
    window controls, the rotation of the swap icon, and the effect that
    stores [fontSize]: the [localStorage] of the model never receives
    the key ["fontSize"] that the main window writes after its first
    render and after each change of the size, and no statement below
    reads that key after a run.  The guards [typeof window !==
    "undefined" && window.localStorage] hold in a webview. *)

From Stdlib Require Import ZArith QArith_base List String Ascii Bool Lia.
From stdpp Require Import base option list gmap.
Import ListNotations.

Local Open Scope Z_scope.

(** ** JavaScript values used by the components *)

Module JS.

(** A JavaScript string is a sequence of UTF-16 code units. *)
Abbreviation jsstring := (list N).

(** An ASCII literal as a JavaScript string. *)
Definition js (s : string) : jsstring :=
  map N_of_ascii (list_ascii_of_string s).

(** [ToBoolean] on a string: only the empty string is falsy. *)
Definition truthy (s : jsstring) : bool :=
  match s with
  | [] => false
  | _ :: _ => true
  end.

(** [a === b] on strings. *)
Definition strict_eq (a b : jsstring) : bool := bool_decide (a = b).

(** ECMAScript [WhiteSpace] and [LineTerminator] code points, the
    characters removed by [String.prototype.trim]. *)
Definition isWhiteSpace (c : N) : bool :=
  ((c =? 0x0009) || (c =? 0x000A) || (c =? 0x000B) || (c =? 0x000C)
   || (c =? 0x000D) || (c =? 0x0020) || (c =? 0x00A0) || (c =? 0x1680)
   || ((0x2000 <=? c) && (c <=? 0x200A))
   || (c =? 0x2028) || (c =? 0x2029) || (c =? 0x202F) || (c =? 0x205F)
   || (c =? 0x3000) || (c =? 0xFEFF))%N.

Fixpoint trimStart (s : jsstring) : jsstring :=
  match s with
  | [] => []
  | c :: s' => if isWhiteSpace c then trimStart s' else s
  end.

Definition trimEnd (s : jsstring) : jsstring := rev (trimStart (rev s)).

(** [s.trim()] *)
Definition trim (s : jsstring) : jsstring := trimEnd (trimStart s).

(** [s.startsWith(sub)] and [s.includes(sub)] on strings. *)
Fixpoint startsWith (s sub : jsstring) : bool :=
  match sub, s with
  | [], _ => true
  | _ :: _, [] => false
  | c :: sub', d :: s' => (c =? d)%N && startsWith s' sub'
  end.

Fixpoint str_includes (s sub : jsstring) : bool :=
  startsWith s sub
  || match s with
     | [] => false
     | _ :: s' => str_includes s' sub
     end.

(** [xs.slice(-n)]: the last [n] elements. *)
Definition slice_last (n : nat) (xs : list jsstring) : list jsstring :=
  drop (length xs - n) xs.

(** [xs.indexOf(x)], counting from [i]; [-1] when [x] is absent. *)
Fixpoint indexOf_from (xs : list jsstring) (x : jsstring) (i : Z) : Z :=
  match xs with
  | [] => -1
  | y :: ys => if strict_eq y x then i else indexOf_from ys x (i + 1)
  end.

Definition indexOf (xs : list jsstring) (x : jsstring) : Z :=
  indexOf_from xs x 0.

(** [xs.includes(x)] *)
Definition includes (xs : list jsstring) (x : jsstring) : bool :=
  existsb (fun y => strict_eq y x) xs.

(** [xs[i]]; [None] stands for [undefined]. *)
Definition at_index (xs : list jsstring) (i : Z) : option jsstring :=
  if i <? 0 then None else xs !! Z.to_nat i.

(** [xs.length] *)
Definition array_length (xs : list jsstring) : Z := Z.of_nat (length xs).

(** [a % b] : the remainder takes the sign of the dividend. *)
Definition rem (a b : Z) : Z := Z.rem a b.

(** [Math.min], [Math.max] on integers. *)
Definition Math_min (a b : Z) : Z := Z.min a b.
Definition Math_max (a b : Z) : Z := Z.max a b.

(** [deltaY] is a finite double, hence a rational; [x > 0] and
    [Math.sign(x)] only look at the sign of the numerator. *)
Definition gt0 (x : Q) : bool := 0 <? Qnum x.
Definition Math_sign (x : Q) : Z := Z.sgn (Qnum x).

End JS.

Import JS.

(** ** The webview environment

    What a component reaches through globals: [setTimeout] and
    [clearTimeout], [localStorage], and the Tauri bridge ([invoke],
    [emit]).  Calls through the bridge are recorded, in order, in
    [trace]. *)

Module Env.

Inductive effect :=
| Invoke (cmd : jsstring) (args : list (jsstring * jsstring))
| Emit (topic : jsstring) (payload : jsstring).

(** The only function the components pass to [setTimeout]: the arrow
    function of [resetUnloadTimer]. *)
Inductive callback := AutoUnload.

Record timer := Timer { tid : Z; due : Z; cb : callback }.

Record env := Env {
  clock : Z;                              (* milliseconds *)
  next_tid : Z;                           (* the next timer id *)
  timers : list timer;                    (* pending, earliest first *)
  localStorage : gmap jsstring jsstring;
  trace : list effect
}.

(** A fresh webview: timer ids are integers greater than zero. *)
Definition fresh (storage : gmap jsstring jsstring) : env :=
  {| clock := 0; next_tid := 1; timers := []; localStorage := storage;
     trace := [] |}.

Definition set_timers (ts : list timer) (e : env) : env :=
  {| clock := clock e; next_tid := next_tid e; timers := ts;
     localStorage := localStorage e; trace := trace e |}.

Definition record (x : effect) (e : env) : env :=
  {| clock := clock e; next_tid := next_tid e; timers := timers e;
     localStorage := localStorage e; trace := trace e ++ [x] |}.

(** [invoke(cmd, args)]: the call is made now; the promise settles
    later, as an event of its own. *)
Definition invoke (cmd : jsstring) (args : list (jsstring * jsstring))
    (e : env) : env :=
  record (Invoke cmd args) e.

(** [emit(topic, payload)] *)
Definition emit (topic payload : jsstring) (e : env) : env :=
  record (Emit topic payload) e.

(** [localStorage.getItem(k)], [localStorage.setItem(k, v)] *)
Definition getItem (k : jsstring) (e : env) : option jsstring :=
  localStorage e !! k.

Definition setItem (k v : jsstring) (e : env) : env :=
  {| clock := clock e; next_tid := next_tid e; timers := timers e;
     localStorage := <[k := v]> (localStorage e); trace := trace e |}.

(** Pending timers are kept in firing order: by due time, and by
    creation for equal due times. *)
Fixpoint enqueue (t : timer) (ts : list timer) : list timer :=
  match ts with
  | [] => [t]
  | u :: us => if due u <=? due t then u :: enqueue t us else t :: ts
  end.

(** [setTimeout(cb, ms)] returns the id of the new timer. *)
Definition setTimeout (c : callback) (ms : Z) (e : env) : Z * env :=
  let id := next_tid e in
  (id,
   {| clock := clock e; next_tid := id + 1;
      timers := enqueue (Timer id (clock e + ms) c) (timers e);
      localStorage := localStorage e; trace := trace e |}).

(** [clearTimeout(id)]: an id that is not pending is ignored. *)
Definition clearTimeout (id : Z) (e : env) : env :=
  set_timers (List.filter (fun t => negb (tid t =? id)) (timers e)) e.

(** The body of a timer callback. *)
Definition run_callback (c : callback) (e : env) : env :=
  match c with
  | AutoUnload => invoke (js "unload_model") [] e
  end.

Definition expired (t : Z) (x : timer) : bool := due x <=? t.

(** [dt] milliseconds pass: every timer due by then fires once, in
    order, and is gone. *)
Definition advance (dt : N) (e : env) : env :=
  let t := clock e + Z.of_N dt in
  let ready := List.filter (expired t) (timers e) in
  let rest := List.filter (fun x => negb (expired t x)) (timers e) in
  fold_left (fun e' x => run_callback (cb x) e') ready
    {| clock := t; next_tid := next_tid e; timers := rest;
       localStorage := localStorage e; trace := trace e |}.

(** Calls of one bridge command recorded in a trace. *)
Definition is_invoke (cmd : jsstring) (x : effect) : bool :=
  match x with
  | Invoke c _ => strict_eq c cmd
  | Emit _ _ => false
  end.

Definition invocations (cmd : jsstring) (tr : list effect) : list effect :=
  List.filter (is_invoke cmd) tr.

End Env.

Import Env.

(** ** The main window, [src/src/App.tsx] *)

Module App.

(** The string literals of the component, as UTF-16 code units. *)

(* "翻訳中..." *)
Definition placeholder : jsstring :=
  [0x7FFB; 0x8A33; 0x4E2D; 0x002E; 0x002E; 0x002E]%N.

(* "翻訳に失敗しました。バックエンドのログを確認してください。" *)
Definition failure_text : jsstring :=
  [0x7FFB; 0x8A33; 0x306B; 0x5931; 0x6557; 0x3057; 0x307E; 0x3057; 0x305F;
   0x3002; 0x30D0; 0x30C3; 0x30AF; 0x30A8; 0x30F3; 0x30C9; 0x306E; 0x30ED;
   0x30B0; 0x3092; 0x78BA; 0x8A8D; 0x3057; 0x3066; 0x304F; 0x3060; 0x3055;
   0x3044; 0x3002]%N.

(* "エラー: " *)
Definition error_prefix : jsstring :=
  [0x30A8; 0x30E9; 0x30FC; 0x003A; 0x0020]%N.

(** [const modes = ["nano", "light", "balanced", "high"]] *)
Definition modes : list jsstring :=
  [js "nano"; js "light"; js "balanced"; js "high"].

(** The [id]s of the options of the model menu, in order. *)
Definition menu_options : list jsstring :=
  [js "nano"; js "light"; js "balanced"; js "high"].

(** The [useState] and [useRef] cells of the component that the
    handlers below read or write. *)
Record state := State {
  inputText : jsstring;
  translatedText : jsstring;
  sourceLang : jsstring;
  targetLang : jsstring;
  isTranslating : bool;
  modelLoaded : bool;
  modelId : jsstring;
  theme : jsstring;
  fontSize : Z;
  unloadTimerRef : option Z;         (* [null] is [None] *)
  showModelMenu : bool
}.

Definition setInputText (v : jsstring) (s : state) : state :=
  State v (translatedText s) (sourceLang s) (targetLang s)
    (isTranslating s) (modelLoaded s) (modelId s) (theme s) (fontSize s)
    (unloadTimerRef s) (showModelMenu s).

Definition setTranslatedText (f : jsstring -> jsstring) (s : state) : state :=
  State (inputText s) (f (translatedText s)) (sourceLang s) (targetLang s)
    (isTranslating s) (modelLoaded s) (modelId s) (theme s) (fontSize s)
    (unloadTimerRef s) (showModelMenu s).

Definition setIsTranslating (v : bool) (s : state) : state :=
  State (inputText s) (translatedText s) (sourceLang s) (targetLang s)
    v (modelLoaded s) (modelId s) (theme s) (fontSize s)
    (unloadTimerRef s) (showModelMenu s).

Definition setModelLoaded (v : bool) (s : state) : state :=
  State (inputText s) (translatedText s) (sourceLang s) (targetLang s)
    (isTranslating s) v (modelId s) (theme s) (fontSize s)
    (unloadTimerRef s) (showModelMenu s).

Definition setModelId (v : jsstring) (s : state) : state :=
  State (inputText s) (translatedText s) (sourceLang s) (targetLang s)
    (isTranslating s) (modelLoaded s) v (theme s) (fontSize s)
    (unloadTimerRef s) (showModelMenu s).

Definition setTheme (f : jsstring -> jsstring) (s : state) : state :=
  State (inputText s) (translatedText s) (sourceLang s) (targetLang s)
    (isTranslating s) (modelLoaded s) (modelId s) (f (theme s)) (fontSize s)
    (unloadTimerRef s) (showModelMenu s).

Definition setFontSize (f : Z -> Z) (s : state) : state :=
  State (inputText s) (translatedText s) (sourceLang s) (targetLang s)
    (isTranslating s) (modelLoaded s) (modelId s) (theme s) (f (fontSize s))
    (unloadTimerRef s) (showModelMenu s).

Definition setUnloadTimerRef (v : option Z) (s : state) : state :=
  State (inputText s) (translatedText s) (sourceLang s) (targetLang s)
    (isTranslating s) (modelLoaded s) (modelId s) (theme s) (fontSize s)
    v (showModelMenu s).

Definition setSourceLang (f : jsstring -> jsstring) (s : state) : state :=
  State (inputText s) (translatedText s) (f (sourceLang s)) (targetLang s)
    (isTranslating s) (modelLoaded s) (modelId s) (theme s) (fontSize s)
    (unloadTimerRef s) (showModelMenu s).

Definition setTargetLang (f : jsstring -> jsstring) (s : state) : state :=
  State (inputText s) (translatedText s) (sourceLang s) (f (targetLang s))
    (isTranslating s) (modelLoaded s) (modelId s) (theme s) (fontSize s)
    (unloadTimerRef s) (showModelMenu s).

Definition setShowModelMenu (v : bool) (s : state) : state :=
  State (inputText s) (translatedText s) (sourceLang s) (targetLang s)
    (isTranslating s) (modelLoaded s) (modelId s) (theme s) (fontSize s)
    (unloadTimerRef s) v.

(** The initial values of the [useState] cells.  [prefersDark] is the
    answer of [matchMedia("(prefers-color-scheme: dark)")]; [parseInt]
    is the built-in, [None] standing for [NaN]. *)
Definition initial_theme (e : env) (prefersDark : bool) : jsstring :=
  match getItem (js "theme") e with
  | Some saved =>
      if truthy saved then saved
      else if prefersDark then js "dark" else js "light"
  | None => if prefersDark then js "dark" else js "light"
  end.

Definition initial_fontSize (parseInt : jsstring -> option Z) (e : env) : Z :=
  let item := match getItem (js "fontSize") e with
              | Some v => if truthy v then v else js "24"
              | None => js "24"
              end in
  match parseInt item with
  | Some saved => saved
  | None => 24
  end.

Definition init (parseInt : jsstring -> option Z) (prefersDark : bool)
    (e : env) : state :=
  {| inputText := [];
     translatedText := [];
     sourceLang := js "English";
     targetLang := js "Japanese";
     isTranslating := false;
     modelLoaded := false;
     modelId := js "balanced";
     theme := initial_theme e prefersDark;
     fontSize := initial_fontSize parseInt e;
     unloadTimerRef := None;
     showModelMenu := false |}.

(** [if (unloadTimerRef.current) clearTimeout(unloadTimerRef.current)] *)
Definition clear_pending (s : state) (e : env) : env :=
  match unloadTimerRef s with
  | Some id => if id =? 0 then e else clearTimeout id e
  | None => e
  end.

Definition resetUnloadTimer (s : state) (e : env) : state * env :=
  let e1 := clear_pending s e in
  let '(id, e2) := setTimeout AutoUnload 30000 e1 in
  (setUnloadTimerRef (Some id) s, e2).

(** The listener of ["translation-event"]. *)
Definition on_translation_event (chunk : jsstring) (is_last : bool)
    (s : state) (e : env) : state * env :=
  let s1 :=
    if truthy chunk then
      setTranslatedText
        (fun prev => if strict_eq prev placeholder then chunk
                     else prev ++ chunk) s
    else s in
  if is_last then
    let s2 := setIsTranslating false s1 in
    let s3 :=
      setTranslatedText
        (fun prev => if strict_eq prev placeholder then failure_text
                     else prev) s2 in
    resetUnloadTimer s3 e
  else (s1, e).

(** The listener of ["debug-log"]. *)
Definition on_debug_log (payload : jsstring) (s : state) : state :=
  let s1 :=
    if str_includes payload (js "Model loaded successfully")
    then setModelLoaded true s else s in
  if str_includes payload (js "Model unloaded")
  then setModelLoaded false s1 else s1.

(** [handleTranslate], up to its [await invoke("translate", ...)]. *)
Definition handleTranslate (s : state) (e : env) : state * env :=
  if negb (truthy (trim (inputText s))) then (s, e)
  else
    let e1 := clear_pending s e in
    let s1 := setIsTranslating true s in
    let s2 := setModelLoaded true s1 in
    let s3 := setTranslatedText (fun _ => placeholder) s2 in
    (s3,
     invoke (js "translate")
       [(js "text", inputText s); (js "sourceLang", sourceLang s);
        (js "targetLang", targetLang s); (js "modelId", modelId s)] e1).

(** The [catch] block of [handleTranslate]: the promise was rejected
    with [err], here already converted to a string. *)
Definition handleTranslate_catch (err : jsstring) (s : state) (e : env)
    : state * env :=
  let s1 := setTranslatedText (fun _ => error_prefix ++ err) s in
  let s2 := setIsTranslating false s1 in
  resetUnloadTimer s2 e.

(** [handleCancel], up to its [await invoke("cancel_translation")].
    Neither the fulfilment nor the rejection of that promise touches
    the component: the [catch] block only logs. *)
Definition handleCancel (s : state) (e : env) : state * env :=
  if negb (isTranslating s) then (s, e)
  else (s, invoke (js "cancel_translation") [] e).

Definition handleCancel_settled (s : state) (e : env) : state * env :=
  (s, e).

(** The translate/stop button:
    [onClick={isTranslating ? handleCancel : handleTranslate}],
    [disabled={!isTranslating && !inputText.trim()}]. *)
Definition button_disabled (s : state) : bool :=
  negb (isTranslating s) && negb (truthy (trim (inputText s))).

Definition button_click (s : state) (e : env) : state * env :=
  if button_disabled s then (s, e)
  else if isTranslating s then handleCancel s e
  else handleTranslate s e.

(** [cycleMode]; [None] when [modes[nextIndex]] is [undefined]. *)
Definition nextMode (current : jsstring) : option jsstring :=
  let currentIndex := indexOf modes current in
  let nextIndex := rem (currentIndex + 1) (array_length modes) in
  at_index modes nextIndex.

Definition cycleMode (s : state) : option state :=
  match nextMode (modelId s) with
  | Some m => Some (setModelId m s)
  | None => None
  end.

(** A click on the [i]-th entry of the model menu. *)
Definition select_model (i : nat) (s : state) : state :=
  match menu_options !! i with
  | Some id => setShowModelMenu false (setModelId id s)
  | None => s
  end.

(** The button of the model menu, and a click outside the open menu. *)
Definition menu_button (s : state) : state :=
  setShowModelMenu (negb (showModelMenu s)) s.

Definition click_outside (s : state) : state :=
  if showModelMenu s then setShowModelMenu false s else s.

(** [handleSwapLanguages], and the two language buttons. *)
Definition handleSwapLanguages (s : state) : state :=
  let s1 :=
    setSourceLang (fun prev => if strict_eq prev (js "English")
                               then js "Japanese" else js "English") s in
  setTargetLang (fun prev => if strict_eq prev (js "Japanese")
                             then js "English" else js "Japanese") s1.

Definition source_lang_click (s : state) : state :=
  setSourceLang (fun _ => if strict_eq (sourceLang s) (js "English")
                          then js "Japanese" else js "English") s.

Definition target_lang_click (s : state) : state :=
  setTargetLang (fun _ => if strict_eq (targetLang s) (js "Japanese")
                          then js "English" else js "Japanese") s.

(** The effect with dependency [[theme]]: it runs after the first
    render and after every render in which [theme] has changed. *)
Definition theme_effect (s : state) (e : env) : env :=
  emit (js "theme-changed") (theme s)
    (setItem (js "theme") (theme s) e).

Definition mount (s : state) (e : env) : env := theme_effect s e.

Definition toggleTheme (s : state) (e : env) : state * env :=
  let s' := setTheme (fun prev => if strict_eq prev (js "dark")
                                  then js "light" else js "dark") s in
  (s', if strict_eq (theme s') (theme s) then e else theme_effect s' e).

(** The fields of a [WheelEvent] that [handleWheel] reads. *)
Record wheel := Wheel { ctrlKey : bool; deltaY : Q }.

Definition handleWheel (w : wheel) (s : state) : state :=
  if ctrlKey w then
    let delta := if gt0 (deltaY w) then -2 else 2 in
    setFontSize (fun prev => Math_min (Math_max (prev + delta) 12) 72) s
  else s.

(** What can happen to the mounted component. *)
Inductive event :=
| Input (text : jsstring)               (* [onChange] of the textarea *)
| CtrlEnter                             (* [onKeyDown] of the textarea *)
| ButtonClick                           (* the translate/stop button *)
| TranslateRejected (err : jsstring)    (* the translate promise rejects *)
| TranslateResolved                     (* ... or is fulfilled *)
| CancelSettled                         (* the cancel promise settles *)
| Chunk (chunk : jsstring) (is_last : bool)   (* "translation-event" *)
| CycleMode                             (* Ctrl+M *)
| SelectModel (i : nat)                 (* a model menu entry *)
| ToggleTheme
| WheelMoved (w : wheel)
| Elapsed (dt : N)                      (* time passes *)
| DebugLog (payload : jsstring)         (* "debug-log" *)
| SwapLanguages                         (* Ctrl+Tab, or the swap button *)
| SourceLangClick
| TargetLangClick
| MenuButton
| ClickOutside.

Definition step (ev : event) (se : state * env) : state * env :=
  let '(s, e) := se in
  match ev with
  | Input text => (setInputText text s, e)
  | CtrlEnter => handleTranslate s e
  | ButtonClick => button_click s e
  | TranslateRejected err => handleTranslate_catch err s e
  | TranslateResolved => (s, e)
  | CancelSettled => handleCancel_settled s e
  | Chunk chunk is_last => on_translation_event chunk is_last s e
  | CycleMode =>
      (* [cycleMode] never yields [None]: [nextMode_known] *)
      match cycleMode s with Some s' => (s', e) | None => (s, e) end
  | SelectModel i => (select_model i s, e)
  | ToggleTheme => toggleTheme s e
  | WheelMoved w => (handleWheel w s, e)
  | Elapsed dt => (s, advance dt e)
  | DebugLog payload => (on_debug_log payload s, e)
  | SwapLanguages => (handleSwapLanguages s, e)
  | SourceLangClick => (source_lang_click s, e)
  | TargetLangClick => (target_lang_click s, e)
  | MenuButton => (menu_button s, e)
  | ClickOutside => (click_outside s, e)
  end.

Definition run (evs : list event) (se : state * env) : state * env :=
  fold_left (fun acc ev => step ev acc) evs se.

(** The component after its first render in a fresh webview. *)
Definition start (parseInt : jsstring -> option Z) (prefersDark : bool)
    (storage : gmap jsstring jsstring) : state * env :=
  let e := fresh storage in
  let s := init parseInt prefersDark e in
  (s, mount s e).

End App.

(** ** The quick popup, [src/unnamed/part_002] *)

Module Popup.

Definition modes : list jsstring :=
  [js "nano"; js "light"; js "balanced"; js "high"].

Definition menu_options : list jsstring :=
  [js "nano"; js "light"; js "balanced"; js "high"].

Record state := State {
  text : jsstring;
  translation : jsstring;
  loading : bool;
  error : option jsstring;           (* [null] is [None] *)
  logs : list jsstring;
  fontSize : Z;
  sourceLang : jsstring;
  targetLang : jsstring;
  modelId : jsstring;
  theme : jsstring;
  showModelMenu : bool
}.

Definition setText (v : jsstring) (s : state) : state :=
  State v (translation s) (loading s) (error s) (logs s) (fontSize s)
    (sourceLang s) (targetLang s) (modelId s) (theme s) (showModelMenu s).

Definition setTranslation (f : jsstring -> jsstring) (s : state) : state :=
  State (text s) (f (translation s)) (loading s) (error s) (logs s)
    (fontSize s) (sourceLang s) (targetLang s) (modelId s) (theme s)
    (showModelMenu s).

Definition setLoading (v : bool) (s : state) : state :=
  State (text s) (translation s) v (error s) (logs s) (fontSize s)
    (sourceLang s) (targetLang s) (modelId s) (theme s) (showModelMenu s).

Definition setError (v : option jsstring) (s : state) : state :=
  State (text s) (translation s) (loading s) v (logs s) (fontSize s)
    (sourceLang s) (targetLang s) (modelId s) (theme s) (showModelMenu s).

Definition setLogs (f : list jsstring -> list jsstring) (s : state) : state :=
  State (text s) (translation s) (loading s) (error s) (f (logs s))
    (fontSize s) (sourceLang s) (targetLang s) (modelId s) (theme s)
    (showModelMenu s).

Definition setFontSize (f : Z -> Z) (s : state) : state :=
  State (text s) (translation s) (loading s) (error s) (logs s)
    (f (fontSize s)) (sourceLang s) (targetLang s) (modelId s) (theme s)
    (showModelMenu s).

Definition setSourceLang (v : jsstring) (s : state) : state :=
  State (text s) (translation s) (loading s) (error s) (logs s) (fontSize s)
    v (targetLang s) (modelId s) (theme s) (showModelMenu s).

Definition setTargetLang (v : jsstring) (s : state) : state :=
  State (text s) (translation s) (loading s) (error s) (logs s) (fontSize s)
    (sourceLang s) v (modelId s) (theme s) (showModelMenu s).

Definition setModelId (v : jsstring) (s : state) : state :=
  State (text s) (translation s) (loading s) (error s) (logs s) (fontSize s)
    (sourceLang s) (targetLang s) v (theme s) (showModelMenu s).

Definition setTheme (v : jsstring) (s : state) : state :=
  State (text s) (translation s) (loading s) (error s) (logs s) (fontSize s)
    (sourceLang s) (targetLang s) (modelId s) v (showModelMenu s).

Definition setShowModelMenu (v : bool) (s : state) : state :=
  State (text s) (translation s) (loading s) (error s) (logs s) (fontSize s)
    (sourceLang s) (targetLang s) (modelId s) (theme s) v.

(** The initializer of the [modelId] cell. *)
Definition initial_modelId (e : env) : jsstring :=
  match getItem (js "defaultModel") e with
  | Some saved =>
      if truthy saved && includes modes saved then saved
      else js "balanced"
  | None => js "balanced"
  end.

Definition init (e : env) : state :=
  {| text := [];
     translation := [];
     loading := false;
     error := None;
     logs := [];
     fontSize := 16;
     sourceLang := js "English";
     targetLang := js "Japanese";
     modelId := initial_modelId e;
     theme := js "dark";
     showModelMenu := false |}.

(** The theme part of the first effect: the stored theme, when there
    is one, replaces the default. *)
Definition mount (s : state) (e : env) : state :=
  match getItem (js "theme") e with
  | Some savedTheme => if truthy savedTheme then setTheme savedTheme s else s
  | None => s
  end.

(** [translateText], up to its [await invoke("translate", ...)]. *)
Definition translateText (sourceText src tgt model : jsstring)
    (s : state) (e : env) : state * env :=
  if negb (truthy (trim sourceText)) then (s, e)
  else
    (s,
     invoke (js "translate")
       [(js "text", sourceText); (js "sourceLang", src);
        (js "targetLang", tgt); (js "modelId", model)] e).

(** The [catch] block of [translateText]. *)
Definition translateText_catch (err : jsstring) (s : state) (e : env)
    : state * env :=
  (setLoading false (setError (Some err) s), e).

(** The listener of ["popup-data"]. *)
Definition on_popup_data (payload : jsstring) (s : state) (e : env)
    : state * env :=
  let s1 := setText payload s in
  let s2 := setTranslation (fun _ => []) s1 in
  let s3 := setLoading true s2 in
  let s4 := setError None s3 in
  let s5 := setLogs (fun _ => []) s4 in
  translateText payload (sourceLang s) (targetLang s) (modelId s) s5 e.

(** The listener of ["translation-event-popup"]. *)
Definition on_translation_event_popup (chunk : jsstring) (is_last : bool)
    (s : state) : state :=
  let s1 :=
    if truthy chunk then setTranslation (fun prev => prev ++ chunk) s
    else s in
  if is_last then setLoading false s1 else s1.

(** The listener of ["debug-log"]: the last five lines are kept. *)
Definition on_debug_log (payload : jsstring) (s : state) : state :=
  setLogs (fun prev => slice_last 4 prev ++ [payload]) s.

(** The listener of ["theme-changed"]. *)
Definition on_theme_changed (payload : jsstring) (s : state) : state :=
  setTheme payload s.

(** Ctrl+Enter in [handleShortcut]. *)
Definition ctrl_enter (s : state) (e : env) : state * env :=
  if truthy (text s) then
    let s1 := setTranslation (fun _ => []) s in
    let s2 := setLoading true s1 in
    translateText (text s) (sourceLang s) (targetLang s) (modelId s) s2 e
  else (s, e).

Definition nextMode (current : jsstring) : option jsstring :=
  let currentIndex := indexOf modes current in
  let nextIndex := rem (currentIndex + 1) (array_length modes) in
  at_index modes nextIndex.

(** [cycleMode]; [None] when [modes[nextIndex]] is [undefined]. *)
Definition cycleMode (s : state) (e : env) : option (state * env) :=
  match nextMode (modelId s) with
  | Some m =>
      let s1 := setModelId m s in
      Some (if truthy (text s) then
              let s2 := setTranslation (fun _ => []) s1 in
              let s3 := setLoading true s2 in
              translateText (text s) (sourceLang s) (targetLang s) m s3 e
            else (s1, e))
  | None => None
  end.

Definition handleSwap (s : state) (e : env) : state * env :=
  let newSource := targetLang s in
  let newTarget := sourceLang s in
  let s1 := setTargetLang newTarget (setSourceLang newSource s) in
  if truthy (text s) then
    let s2 := setTranslation (fun _ => []) s1 in
    let s3 := setLoading true s2 in
    translateText (text s) newSource newTarget (modelId s) s3 e
  else (s1, e).

(** A click on the [i]-th entry of the model menu. *)
Definition select_model (i : nat) (s : state) (e : env) : state * env :=
  match menu_options !! i with
  | Some id =>
      let s1 := setShowModelMenu false (setModelId id s) in
      if truthy (text s) then
        let s2 := setTranslation (fun _ => []) s1 in
        let s3 := setLoading true s2 in
        translateText (text s) (sourceLang s) (targetLang s) id s3 e
      else (s1, e)
  | None => (s, e)
  end.

(** The mode indicator, and a click outside the model menu. *)
Definition menu_button (s : state) : state :=
  setShowModelMenu (negb (showModelMenu s)) s.

Definition click_outside (s : state) : state := setShowModelMenu false s.

Record wheel := Wheel { ctrlKey : bool; deltaY : Q }.

Definition handleWheel (w : wheel) (s : state) : state :=
  if ctrlKey w then
    setFontSize
      (fun prev =>
         let newSize := prev - Math_sign (deltaY w) * 2 in
         Math_max 10 (Math_min newSize 48)) s
  else s.

Inductive event :=
| PopupData (payload : jsstring)        (* "popup-data" *)
| Chunk (chunk : jsstring) (is_last : bool)   (* "translation-event-popup" *)
| ThemeChanged (payload : jsstring)     (* "theme-changed" *)
| TranslateRejected (err : jsstring)
| TranslateResolved
| CtrlEnter
| CycleMode                             (* Ctrl+M *)
| Swap                                  (* Ctrl+Tab, or the header *)
| SelectModel (i : nat)
| WheelMoved (w : wheel)
| DebugLog (payload : jsstring)         (* "debug-log" *)
| MenuButton
| ClickOutside.

(** The handler of each event. *)
Definition handle (ev : event) (se : state * env) : state * env :=
  let '(s, e) := se in
  match ev with
  | PopupData payload => on_popup_data payload s e
  | Chunk chunk is_last => (on_translation_event_popup chunk is_last s, e)
  | ThemeChanged payload => (on_theme_changed payload s, e)
  | TranslateRejected err => translateText_catch err s e
  | TranslateResolved => (s, e)
  | CtrlEnter => ctrl_enter s e
  | CycleMode =>
      (* [cycleMode] never yields [None]: [nextMode_known] *)
      match cycleMode s e with Some r => r | None => (s, e) end
  | Swap => handleSwap s e
  | SelectModel i => select_model i s e
  | WheelMoved w => (handleWheel w s, e)
  | DebugLog payload => (on_debug_log payload s, e)
  | MenuButton => (menu_button s, e)
  | ClickOutside => (click_outside s, e)
  end.

(** The first effect has the dependencies
    [[sourceLang, targetLang, modelId]]: after a render in which one of
    them has changed it runs again, and reads the stored theme again. *)
Definition deps_changed (old new : state) : bool :=
  negb (strict_eq (sourceLang old) (sourceLang new)
        && strict_eq (targetLang old) (targetLang new)
        && strict_eq (modelId old) (modelId new)).

Definition rendered (old : state) (r : state * env) : state * env :=
  if deps_changed old (fst r) then (mount (fst r) (snd r), snd r) else r.

Definition step (ev : event) (se : state * env) : state * env :=
  rendered (fst se) (handle ev se).

Definition run (evs : list event) (se : state * env) : state * env :=
  fold_left (fun acc ev => step ev acc) evs se.

(** The popup after its first render and first effect. *)
Definition start (storage : gmap jsstring jsstring) : state * env :=
  let e := fresh storage in
  (mount (init e) e, e).

End Popup.

(** ** The main window without model selection, [src/unnamed/part_006] *)

Module PlainApp.

(* "翻訳中..." *)
Definition placeholder : jsstring := App.placeholder.

Record state := State {
  inputText : jsstring;
  translatedText : jsstring;
  sourceLang : jsstring;
  targetLang : jsstring;
  isTranslating : bool
}.

(** [handleTranslate], up to its [await]. *)
Definition handleTranslate (s : state) (e : env) : state * env :=
  if negb (truthy (trim (inputText s))) then (s, e)
  else
    (State (inputText s) placeholder (sourceLang s) (targetLang s) true,
     invoke (js "translate")
       [(js "text", inputText s); (js "sourceLang", sourceLang s);
        (js "targetLang", targetLang s)] e).

(** The translate button: [onClick={handleTranslate}],
    [disabled={isTranslating || !inputText.trim()}]. *)
Definition button_disabled (s : state) : bool :=
  isTranslating s || negb (truthy (trim (inputText s))).

Definition button_click (s : state) (e : env) : state * env :=
  if button_disabled s then (s, e) else handleTranslate s e.

(** The listener of ["translation-event"]: every chunk is appended,
    empty or not. *)
Definition on_translation_event (chunk : jsstring) (is_last : bool)
    (s : state) : state :=
  let newText :=
    if strict_eq (translatedText s) placeholder then chunk
    else translatedText s ++ chunk in
  State (inputText s) newText (sourceLang s) (targetLang s)
    (if is_last then false else isTranslating s).

(** The [catch] block of [handleTranslate]. *)
Definition handleTranslate_catch (err : jsstring) (s : state) : state :=
  State (inputText s) (App.error_prefix ++ err) (sourceLang s) (targetLang s)
    false.

(** [handleSwapLanguages]: the languages change places, and so do the
    two texts. *)
Definition handleSwapLanguages (s : state) : state :=
  let temp := sourceLang s in
  let tempText := inputText s in
  State (translatedText s) tempText (targetLang s) temp (isTranslating s).

(** The chunks of a stream, received in order. *)
Definition receive (chunks : list (jsstring * bool)) (s : state) : state :=
  fold_left (fun acc c => on_translation_event (fst c) (snd c) acc) chunks s.

End PlainApp.

(** ** The event bus between the two windows

    An [emit] of the main window reaches the listeners of the popup, in
    the order of emission. *)

Module Bus.

Definition deliver_one (x : effect) (p : Popup.state) : Popup.state :=
  match x with
  | Emit topic payload =>
      if strict_eq topic (js "theme-changed")
      then Popup.on_theme_changed payload p
      else p
  | Invoke _ _ => p
  end.

Definition deliver (published : list effect) (p : Popup.state)
    : Popup.state :=
  fold_left (fun acc x => deliver_one x acc) published p.

End Bus.

(** * The vocabulary of the properties

    Predicates over states, environments and traces, and the event
    sequences the properties below speak about. *)

(** One session's stream as the main window receives it: the fragments
    before the end, then the final chunk. *)
Definition stream (fragments : list jsstring) (final : jsstring)
    : list App.event :=
  map (fun f => App.Chunk f false) fragments ++ [App.Chunk final true].

(** What the two state updates of the listener do to the text. *)
Definition append_chunk (prev chunk : jsstring) : jsstring :=
  if truthy chunk then
    if strict_eq prev App.placeholder then chunk else prev ++ chunk
  else prev.

Definition fallback (prev : jsstring) : jsstring :=
  if strict_eq prev App.placeholder then App.failure_text else prev.

(** The main window just after a translation of "Hello" was started in
    a fresh webview: the text is the placeholder and [isTranslating] is
    set. *)
Definition translating_hello : App.state * env :=
  App.run [App.Input (js "Hello"); App.CtrlEnter]
    (App.start (fun _ => None) true ∅).

(** The events that end a session in the main window: the final chunk,
    and the rejection of the translate invocation. *)
Definition ends_session (ev : App.event) : bool :=
  match ev with
  | App.Chunk _ true => true
  | App.TranslateRejected _ => true
  | _ => false
  end.

(** ... and those that start one when none is running. *)
Definition starts_session (ev : App.event) (s : App.state) : bool :=
  match ev with
  | App.CtrlEnter | App.ButtonClick => truthy (trim (App.inputText s))
  | _ => false
  end.

(** One timer is pending, it is the one the component remembers, it
    runs the auto-unload callback, and it is due 30,000 ms from now. *)
Definition armed (se : App.state * env) : Prop :=
  exists id,
    timers (snd se) = [Timer id (clock (snd se) + 30000) AutoUnload]
    /\ App.unloadTimerRef (fst se) = Some id.

(** At most one timer is ever pending, and [unloadTimerRef] holds its
    id. *)
Definition timer_inv (se : App.state * env) : Prop :=
  match timers (snd se) with
  | [] => True
  | [t] => App.unloadTimerRef (fst se) = Some (tid t) /\ tid t <> 0
  | _ :: _ :: _ => False
  end
  /\ 0 < next_tid (snd se).

(** While the main window is translating no timer is pending. *)
Definition busy_inv (se : App.state * env) : Prop :=
  timer_inv se
  /\ (App.isTranslating (fst se) = true -> timers (snd se) = []).

(** The value of a field of the argument object of an [invoke]. *)
Definition arg (k : jsstring) (args : list (jsstring * jsstring))
    : option jsstring :=
  match List.find (fun kv => strict_eq (fst kv) k) args with
  | Some kv => Some (snd kv)
  | None => None
  end.


(** One of nano, light, balanced and high. *)
Definition known (m : jsstring) : Prop := includes App.modes m = true.




(** What the popup holds once everything published so far has been
    delivered is the theme of the main window. *)
Definition theme_inv (se : App.state * env) : Prop :=
  forall p : Popup.state,
    Popup.theme (Bus.deliver (trace (snd se)) p) = App.theme (fst se).

(** The theme of the main window is always the stored one. *)
Definition stored_theme_inv (se : App.state * env) : Prop :=
  getItem (js "theme") (snd se) = Some (App.theme (fst se))
  /\ truthy (App.theme (fst se)) = true.

(** The bounds of the font size in the two windows. *)
Definition main_bounds (n : Z) : Prop := 12 <= n <= 72.
Definition popup_bounds (n : Z) : Prop := 10 <= n <= 48.

(** The translate invocation for a text, a pair of languages and a
    model. *)
Definition request (text src tgt model : jsstring) : effect :=
  Invoke (js "translate")
    [(js "text", text); (js "sourceLang", src); (js "targetLang", tgt);
     (js "modelId", model)].

(** A recorded call does not ask for the translation of blank text. *)
Definition text_not_blank (x : effect) : bool :=
  match x with
  | Invoke cmd args =>
      if strict_eq cmd (js "translate") then
        match arg (js "text") args with
        | Some t => truthy (trim t)
        | None => false
        end
      else true
  | Emit _ _ => true
  end.

(** The two languages of the language buttons. *)
Definition lang_ok (l : jsstring) : Prop :=
  l = js "English" \/ l = js "Japanese".

(** How often [unload_model] was invoked. *)
Definition unloads (tr : list effect) : nat :=
  length (invocations (js "unload_model") tr).

(** The events of the popup that are neither a final chunk nor the
    rejection of a translate invocation. *)
Definition popup_quiet (ev : Popup.event) : bool :=
  match ev with
  | Popup.Chunk _ true => false
  | Popup.TranslateRejected _ => false
  | _ => true
  end.

(** The events of the main window that neither hand in a translation
    nor end a session. *)
Definition idle_event (ev : App.event) : bool :=
  match ev with
  | App.CtrlEnter | App.ButtonClick => false
  | App.Chunk _ true => false
  | App.TranslateRejected _ => false
  | _ => true
  end.

(** The time that passes in a sequence of events, in milliseconds. *)
Fixpoint time_passed (evs : list App.event) : Z :=
  match evs with
  | [] => 0
  | App.Elapsed dt :: evs' => Z.of_N dt + time_passed evs'
  | _ :: evs' => time_passed evs'
  end.

(** What the listener of [PlainApp] does to the text. *)
Definition plain_append (prev chunk : jsstring) : jsstring :=
  if strict_eq prev PlainApp.placeholder then chunk else prev ++ chunk.

(** * Properties *)

(** The handlers that only touch the languages, the model menu, the log
    lines or [modelLoaded] leave the rest of the component alone; goals
    saying so are closed by looking at the component field by field. *)
Ltac state_frame s :=
  unfold App.on_debug_log, App.handleSwapLanguages, App.source_lang_click,
    App.target_lang_click, App.menu_button, App.click_outside,
    Popup.on_debug_log, Popup.menu_button, Popup.click_outside;
  destruct s; cbn;
  repeat match goal with
         | |- context [if ?b then _ else _] => destruct b
         end;
  done.

(** ** Strings and arrays *)

Example trim_example :
  trim ([0x3000; 0x0020]%N ++ js "a b" ++ [0x000A]%N) = js "a b".
Proof. reflexivity. Qed.

Example str_includes_example :
  str_includes (js "[engine] Model unloaded (idle)") (js "Model unloaded")
  = true.
Proof. reflexivity. Qed.

Example nextMode_wraps : App.nextMode (js "high") = Some (js "nano").
Proof. reflexivity. Qed.

Example nextMode_unknown : App.nextMode (js "turbo") = Some (js "nano").
Proof. reflexivity. Qed.

Lemma strict_eq_true (a b : jsstring) : strict_eq a b = true <-> a = b.
Proof. unfold strict_eq. apply bool_decide_eq_true. Qed.

Lemma strict_eq_false (a b : jsstring) : strict_eq a b = false <-> a <> b.
Proof. unfold strict_eq. apply bool_decide_eq_false. Qed.

Lemma strict_eq_refl (a : jsstring) : strict_eq a a = true.
Proof. by apply strict_eq_true. Qed.

Lemma truthy_false (s : jsstring) : truthy s = false <-> s = [].
Proof. destruct s; simpl; split; congruence. Qed.

Lemma truthy_app (a b : jsstring) : truthy (a ++ b) = truthy a || truthy b.
Proof. destruct a; simpl; [by destruct b | done]. Qed.

Lemma filter_truthy_concat (l : list jsstring) :
  concat (List.filter truthy l) = concat l.
Proof.
  induction l as [|x l IH]; simpl; [done|].
  destruct x as [|c x]; simpl; [done|]. by rewrite IH.
Qed.

(** ** Re-running the first effect of the popup *)

(** It can only replace the theme. *)
Lemma rendered_frame (old : Popup.state) (r : Popup.state * env) :
  snd (Popup.rendered old r) = snd r
  /\ Popup.setTheme (Popup.theme (fst r)) (fst (Popup.rendered old r)) = fst r.
Proof.
  unfold Popup.rendered, Popup.mount. destruct r as [s e]. cbn [fst snd].
  destruct (Popup.deps_changed old s); cbn [fst snd]; [|by destruct s].
  split; [done|].
  destruct (getItem (js "theme") e) as [t|]; [|by destruct s].
  destruct (truthy t); by destruct s.
Qed.

Lemma rendered_fields (old : Popup.state) (r : Popup.state * env) :
  let s := fst r in
  let s' := fst (Popup.rendered old r) in
  Popup.text s' = Popup.text s
  /\ Popup.translation s' = Popup.translation s
  /\ Popup.loading s' = Popup.loading s
  /\ Popup.error s' = Popup.error s
  /\ Popup.fontSize s' = Popup.fontSize s
  /\ Popup.modelId s' = Popup.modelId s.
Proof.
  cbv zeta. destruct (rendered_frame old r) as [_ H].
  set (s' := fst (Popup.rendered old r)) in *.
  rewrite <- H. by destruct s'.
Qed.

(** ** Streamed chunks in the main window (C1, C6) *)

Lemma run_app (evs evs' : list App.event) se :
  App.run (evs ++ evs') se = App.run evs' (App.run evs se).
Proof. unfold App.run. apply fold_left_app. Qed.

Lemma run_fragments (fragments : list jsstring) (s : App.state) (e : env) :
  App.run (map (fun f => App.Chunk f false) fragments) (s, e) =
  (App.setTranslatedText (fun prev => fold_left append_chunk fragments prev) s,
   e).
Proof.
  revert s. induction fragments as [|f fragments IH]; intros s.
  - by destruct s.
  - cbn [map App.run fold_left]. fold (App.run (map (fun f => App.Chunk f false) fragments)).
    cbn [App.step]. unfold App.on_translation_event.
    rewrite IH.
    destruct (truthy f) eqn:Hf; destruct s; cbn; unfold append_chunk;
      by rewrite Hf.
Qed.

Lemma on_final_chunk_text (chunk : jsstring) (s : App.state) (e : env) :
  App.translatedText (fst (App.on_translation_event chunk true s e)) =
  fallback (append_chunk (App.translatedText s) chunk).
Proof.
  unfold App.on_translation_event, App.resetUnloadTimer, append_chunk.
  destruct (truthy chunk); by destruct s.
Qed.

Lemma stream_text (fragments : list jsstring) (final : jsstring)
    (s : App.state) (e : env) :
  App.translatedText (fst (App.run (stream fragments final) (s, e))) =
  fallback (fold_left append_chunk (fragments ++ [final]) (App.translatedText s)).
Proof.
  unfold stream. rewrite run_app, run_fragments.
  cbn [App.run fold_left App.step]. rewrite on_final_chunk_text.
  rewrite fold_left_app. by destruct s.
Qed.

Lemma accumulate_from_placeholder (chunks : list jsstring) :
  (forall k, concat (take k chunks) <> App.placeholder) ->
  fold_left append_chunk chunks App.placeholder =
  if truthy (concat chunks) then concat chunks else App.placeholder.
Proof.
  induction chunks as [|c chunks IH] using rev_ind; intros Hk; [done|].
  rewrite fold_left_app, concat_app. cbn [fold_left concat].
  rewrite app_nil_r, truthy_app.
  assert (Hpre : forall k, concat (take k chunks) <> App.placeholder).
  { intros k. destruct (decide (k <= length chunks)%nat) as [Hle|Hgt].
    - specialize (Hk k). by rewrite take_app_le in Hk.
    - rewrite take_ge by lia. specialize (Hk (length chunks)).
      by rewrite take_app_le, take_ge in Hk by lia. }
  rewrite (IH Hpre). unfold append_chunk.
  destruct (truthy c) eqn:Hc.
  - rewrite orb_true_r.
    destruct (truthy (concat chunks)) eqn:Hacc.
    + assert (Hne : strict_eq (concat chunks) App.placeholder = false).
      { apply strict_eq_false. specialize (Hpre (length chunks)).
        by rewrite take_ge in Hpre by lia. }
      by rewrite Hne.
    + rewrite strict_eq_refl. apply truthy_false in Hacc. by rewrite Hacc.
  - apply truthy_false in Hc. subst c. rewrite orb_false_r, app_nil_r.
    by destruct (truthy (concat chunks)).
Qed.

(** C1, as stated, fails: when the session delivers no text at all, the
    text shown after the final chunk is not the (empty) concatenation of
    the fragments but the failure message. *)
Lemma empty_stream_shows_failure_text :
  App.translatedText (fst translating_hello) = App.placeholder /\
  App.translatedText (fst (App.run (stream [] []) translating_hello))
    = App.failure_text /\
  App.translatedText (fst (App.run (stream [] []) translating_hello))
    <> concat (List.filter truthy ([] ++ [[]])).
Proof. by vm_compute. Qed.

(** The placeholder is recognised by its text alone: fragments that
    concatenate to the text of the placeholder are taken for it, and the
    next fragment replaces them. *)
Lemma placeholder_text_is_taken_for_placeholder :
  App.translatedText
    (fst (App.run (stream [App.placeholder] (js "x")) translating_hello))
  = js "x".
Proof. by vm_compute. Qed.

(** C1 (amended): for every stream of one session processed in order
    from the placeholder state, provided no initial run of its fragments
    concatenates to exactly the text of the placeholder, the text shown
    after the final chunk is the concatenation, in delivery order, of the
    non-empty fragments when there is one, the first fragment having
    replaced the placeholder; when every fragment is empty it is the
    failure message. *)
Theorem stream_concatenates (fragments : list jsstring) (final : jsstring)
    (s : App.state) (e : env) :
  App.translatedText s = App.placeholder ->
  (forall k, concat (take k (fragments ++ [final])) <> App.placeholder) ->
  App.translatedText (fst (App.run (stream fragments final) (s, e))) =
    let whole := concat (List.filter truthy (fragments ++ [final])) in
    if truthy whole then whole else App.failure_text.
Proof.
  intros Hstart Hk. cbv zeta.
  rewrite stream_text, Hstart, (accumulate_from_placeholder _ Hk).
  rewrite filter_truthy_concat. unfold fallback.
  destruct (truthy (concat (fragments ++ [final]))) eqn:Hw.
  - assert (Hne : strict_eq (concat (fragments ++ [final])) App.placeholder
                  = false).
    { apply strict_eq_false. specialize (Hk (length (fragments ++ [final]))).
      by rewrite take_ge in Hk by lia. }
    by rewrite Hne.
  - by rewrite strict_eq_refl.
Qed.

Lemma stream_concatenates_witness :
  App.translatedText
    (fst (App.run (stream [js "Hel"; []; js "lo "] (js "world"))
            translating_hello))
  = js "Hello world".
Proof.
  apply (stream_concatenates [js "Hel"; []; js "lo "] (js "world")
           (fst translating_hello) (snd translating_hello)).
  - by vm_compute.
  - intros [|[|[|[|[|k]]]]]; by vm_compute.
Defined.

(** In the popup the text starts empty and nothing stands for a
    placeholder: the fragments are appended as they come. *)
Lemma popup_stream_concatenates (chunks : list (jsstring * bool))
    (p : Popup.state) (e : env) :
  Popup.translation
    (fst (Popup.run (map (fun c => Popup.Chunk (fst c) (snd c)) chunks) (p, e)))
  = Popup.translation p ++ concat (map fst chunks).
Proof.
  revert p e. induction chunks as [|[c l] chunks IH]; intros p e.
  - cbn. by rewrite app_nil_r.
  - cbn [map Popup.run fold_left fst snd concat].
    fold (Popup.run (map (fun c => Popup.Chunk (fst c) (snd c)) chunks)).
    destruct (Popup.step (Popup.Chunk c l) (p, e)) as [p' e'] eqn:Hstep.
    rewrite IH. replace (Popup.translation p') with (Popup.translation p ++ c);
      [by rewrite <- app_assoc|].
    change p' with (fst (p', e')). rewrite <- Hstep. unfold Popup.step.
    destruct (rendered_fields (fst (p, e)) (Popup.handle (Popup.Chunk c l) (p, e)))
      as (_ & -> & _).
    cbn [Popup.handle fst]. unfold Popup.on_translation_event_popup.
    destruct c as [|c0 c]; destruct l; destruct p; cbn;
      by rewrite ?app_nil_r.
Qed.

(** C6, as stated, fails in the main window: an empty final chunk that
    arrives while the placeholder is shown replaces the text. *)
Lemma empty_final_chunk_replaces_placeholder :
  App.translatedText (fst translating_hello) = App.placeholder /\
  App.translatedText
    (fst (App.on_translation_event [] true
            (fst translating_hello) (snd translating_hello)))
  <> App.translatedText (fst translating_hello).
Proof. by vm_compute. Qed.

(** C6 (amended): a chunk with an empty fragment leaves the text as it
    is, except that a final chunk arriving while the text is still the
    placeholder replaces the placeholder by the failure message; its
    [is_last] flag ends the translating state all the same.  So the empty
    final chunk of a cancellation ends the session and alters no text
    already rendered.  In the popup an empty fragment never changes the
    text, and [is_last] ends [loading]. *)
Theorem empty_chunk_frame (is_last : bool) (s : App.state) (e : env)
    (p : Popup.state) :
  let s' := fst (App.on_translation_event [] is_last s e) in
  let p' := Popup.on_translation_event_popup [] is_last p in
  App.translatedText s' =
    (if is_last && strict_eq (App.translatedText s) App.placeholder
     then App.failure_text else App.translatedText s)
  /\ App.isTranslating s' = App.isTranslating s && negb is_last
  /\ Popup.translation p' = Popup.translation p
  /\ Popup.loading p' = Popup.loading p && negb is_last.
Proof.
  unfold App.on_translation_event, App.resetUnloadTimer,
    Popup.on_translation_event_popup.
  destruct is_last; destruct s, p; cbn;
    rewrite ?andb_true_r, ?andb_false_r; done.
Qed.

(** ** The idle-unload timer of the main window (C2, C4) *)

(** What each event does to [isTranslating]. *)
Lemma app_isTranslating_step (ev : App.event) (s : App.state) (e : env) :
  App.isTranslating (fst (App.step ev (s, e))) =
  (if App.isTranslating s then negb (ends_session ev)
   else starts_session ev s).
Proof.
  destruct ev as [text| | |err| | |chunk is_last| |i| |w|dt|payload| | | | | ];
    cbn [App.step ends_session starts_session negb fst].
  - by destruct s as [? ? ? ? []].
  - unfold App.handleTranslate.
    destruct (truthy (trim (App.inputText s))); by destruct s as [? ? ? ? []].
  - unfold App.button_click, App.button_disabled, App.handleCancel,
      App.handleTranslate.
    destruct (truthy (trim (App.inputText s))); by destruct s as [? ? ? ? []].
  - by destruct s as [? ? ? ? []].
  - by destruct (App.isTranslating s).
  - unfold App.handleCancel_settled. cbn [fst].
    by destruct (App.isTranslating s).
  - unfold App.on_translation_event, App.resetUnloadTimer.
    destruct is_last, (truthy chunk); by destruct s as [? ? ? ? []].
  - unfold App.cycleMode. destruct (App.nextMode _);
      by destruct s as [? ? ? ? []].
  - unfold App.select_model. destruct (App.menu_options !! i);
      by destruct s as [? ? ? ? []].
  - unfold App.toggleTheme. by destruct s as [? ? ? ? []].
  - unfold App.handleWheel. destruct (App.ctrlKey w);
      by destruct s as [? ? ? ? []].
  - by destruct (App.isTranslating s).
  - state_frame s.
  - state_frame s.
  - state_frame s.
  - state_frame s.
  - state_frame s.
  - state_frame s.
Qed.

Lemma clear_pending_clears (s : App.state) (e : env) :
  timer_inv (s, e) ->
  timers (App.clear_pending s e) = []
  /\ next_tid (App.clear_pending s e) = next_tid e
  /\ clock (App.clear_pending s e) = clock e
  /\ trace (App.clear_pending s e) = trace e
  /\ localStorage (App.clear_pending s e) = localStorage e.
Proof.
  unfold timer_inv, App.clear_pending. cbn [fst snd].
  destruct (timers e) as [|t [|u ts]] eqn:Hts; intros [Hone Hid].
  - destruct (App.unloadTimerRef s) as [id|]; [|done].
    destruct (id =? 0); [done|]. unfold clearTimeout. cbn. by rewrite Hts.
  - destruct Hone as [Href Hnz]. rewrite Href.
    apply Z.eqb_neq in Hnz. rewrite Hnz.
    unfold clearTimeout. cbn. rewrite Hts. cbn. by rewrite Z.eqb_refl.
  - done.
Qed.

Lemma resetUnloadTimer_armed (s : App.state) (e : env) :
  timer_inv (s, e) ->
  armed (App.resetUnloadTimer s e)
  /\ timer_inv (App.resetUnloadTimer s e)
  /\ clock (snd (App.resetUnloadTimer s e)) = clock e
  /\ trace (snd (App.resetUnloadTimer s e)) = trace e.
Proof.
  intros Hinv. destruct (clear_pending_clears s e Hinv)
    as (Hts & Hid & Hclock & Htrace & _).
  unfold App.resetUnloadTimer, setTimeout, armed, timer_inv.
  cbn [fst snd timers clock trace next_tid App.unloadTimerRef
       App.setUnloadTimerRef].
  rewrite Hts, Hid, Hclock, Htrace. cbn [enqueue tid].
  destruct Hinv as [_ Hpos]. cbn [snd] in Hpos.
  repeat split; [by eexists | lia | lia].
Qed.

Lemma timer_inv_ref (s s' : App.state) (e : env) :
  App.unloadTimerRef s' = App.unloadTimerRef s ->
  timer_inv (s, e) -> timer_inv (s', e).
Proof. unfold timer_inv. cbn [fst snd]. by intros ->. Qed.

(** What the passing of time does to the pending timers. *)
Lemma advance_frame (dt : N) (e : env) :
  next_tid (advance dt e) = next_tid e
  /\ timers (advance dt e) =
       List.filter (fun x => negb (expired (clock e + Z.of_N dt) x)) (timers e)
  /\ clock (advance dt e) = clock e + Z.of_N dt
  /\ localStorage (advance dt e) = localStorage e.
Proof.
  unfold advance.
  generalize (List.filter (expired (clock e + Z.of_N dt)) (timers e)).
  generalize (trace e) as tr.
  intros tr ready. revert tr.
  induction ready as [|x ready IH]; intros tr; [done|].
  cbn [fold_left]. destruct (cb x). apply IH.
Qed.

Lemma advance_no_timer (dt : N) (e : env) :
  timers e = [] -> trace (advance dt e) = trace e.
Proof. unfold advance. by intros ->. Qed.

Lemma advance_armed (dt : N) (s : App.state) (e : env) :
  armed (s, e) ->
  trace (advance dt e) =
    trace e ++ (if (dt <? 30000)%N then [] else [Invoke (js "unload_model") []])
  /\ timers (advance dt e) = (if (dt <? 30000)%N then timers e else []).
Proof.
  intros (id & Hts & _). cbn [fst snd] in Hts.
  unfold advance. rewrite Hts. cbn [List.filter]. unfold expired. cbn [due].
  destruct (N.ltb_spec dt 30000) as [Hlt|Hge].
  - assert (Hx : (clock e + 30000 <=? clock e + Z.of_N dt) = false)
      by (apply Z.leb_gt; lia).
    rewrite Hx. cbn. by rewrite app_nil_r.
  - assert (Hx : (clock e + 30000 <=? clock e + Z.of_N dt) = true)
      by (apply Z.leb_le; lia).
    rewrite Hx. by cbn.
Qed.

Lemma timer_inv_advance (dt : N) (s : App.state) (e : env) :
  timer_inv (s, e) -> timer_inv (s, advance dt e).
Proof.
  unfold timer_inv. cbn [fst snd].
  destruct (advance_frame dt e) as (Hid & Hts & _). rewrite Hid, Hts.
  destruct (timers e) as [|t [|u ts]]; [done| |by intros [[] _]].
  cbn [List.filter]. intros [Hone Hpos]. by destruct (negb _).
Qed.

Lemma handleTranslate_timers (s : App.state) (e : env) :
  timer_inv (s, e) ->
  truthy (trim (App.inputText s)) = true ->
  timers (snd (App.handleTranslate s e)) = []
  /\ timer_inv (App.handleTranslate s e)
  /\ exists args,
       trace (snd (App.handleTranslate s e)) =
       trace e ++ [Invoke (js "translate") args].
Proof.
  intros Hinv Hin. destruct (clear_pending_clears s e Hinv)
    as (Hts & Hid & _ & Htrace & _).
  unfold App.handleTranslate. rewrite Hin. cbn [negb snd fst].
  unfold invoke, record, timer_inv. cbn [timers trace next_tid fst snd].
  rewrite Hts, Hid, Htrace. destruct Hinv as [_ Hpos].
  repeat split; [done | by eexists].
Qed.

Lemma timer_inv_handleTranslate (s : App.state) (e : env) :
  timer_inv (s, e) -> timer_inv (App.handleTranslate s e).
Proof.
  intros Hinv. destruct (truthy (trim (App.inputText s))) eqn:Hin.
  - by apply handleTranslate_timers.
  - unfold App.handleTranslate. by rewrite Hin.
Qed.

Lemma timer_inv_step (ev : App.event) (se : App.state * env) :
  timer_inv se -> timer_inv (App.step ev se).
Proof.
  destruct se as [s e]. intros Hinv.
  destruct ev as [text| | |err| | |chunk is_last| |i| |w|dt|payload| | | | | ]; cbn [App.step].
  - by apply (timer_inv_ref s).
  - by apply timer_inv_handleTranslate.
  - unfold App.button_click, App.handleCancel.
    destruct (App.button_disabled s); [done|].
    destruct (App.isTranslating s); [done|].
    by apply timer_inv_handleTranslate.
  - unfold App.handleTranslate_catch.
    apply resetUnloadTimer_armed. by apply (timer_inv_ref s).
  - done.
  - done.
  - unfold App.on_translation_event.
    destruct is_last.
    + apply resetUnloadTimer_armed. apply (timer_inv_ref s); [|done].
      by destruct (truthy chunk).
    + apply (timer_inv_ref s); [|done]. by destruct (truthy chunk).
  - unfold App.cycleMode. destruct (App.nextMode _); [|done].
    by apply (timer_inv_ref s).
  - unfold App.select_model. destruct (App.menu_options !! i); [|done].
    by apply (timer_inv_ref s).
  - unfold App.toggleTheme. cbn [App.theme App.setTheme].
    destruct (strict_eq _ (App.theme s)); by apply (timer_inv_ref s).
  - apply (timer_inv_ref s); [|done]. unfold App.handleWheel.
    by destruct (App.ctrlKey w).
  - by apply timer_inv_advance.
  - apply (timer_inv_ref s); [|done]. state_frame s.
  - apply (timer_inv_ref s); [|done]. state_frame s.
  - apply (timer_inv_ref s); [|done]. state_frame s.
  - apply (timer_inv_ref s); [|done]. state_frame s.
  - apply (timer_inv_ref s); [|done]. state_frame s.
  - apply (timer_inv_ref s); [|done]. state_frame s.
Qed.

Lemma timer_inv_run (evs : list App.event) (se : App.state * env) :
  timer_inv se -> timer_inv (App.run evs se).
Proof.
  revert se. induction evs as [|ev evs IH]; intros se Hinv; [done|].
  cbn [App.run fold_left]. apply IH. by apply timer_inv_step.
Qed.

Lemma timer_inv_start parseInt prefersDark storage :
  timer_inv (App.start parseInt prefersDark storage).
Proof. unfold timer_inv. cbn. lia. Qed.

Lemma ends_session_armed (ev : App.event) (se : App.state * env) :
  timer_inv se -> ends_session ev = true ->
  armed (App.step ev se)
  /\ clock (snd (App.step ev se)) = clock (snd se)
  /\ trace (snd (App.step ev se)) = trace (snd se).
Proof.
  destruct se as [s e]. intros Hinv Hev.
  destruct ev as [| | |err| | |chunk [|]| | | | | | | | | | |];
    try discriminate Hev;
    cbn [App.step].
  - unfold App.handleTranslate_catch.
    match goal with |- armed (App.resetUnloadTimer ?s' e) /\ _ =>
      destruct (resetUnloadTimer_armed s' e) as (Ha & _ & Hc & Ht);
        [by apply (timer_inv_ref s)|done]
    end.
  - unfold App.on_translation_event. cbv iota.
    match goal with |- armed (App.resetUnloadTimer ?s' e) /\ _ =>
      destruct (resetUnloadTimer_armed s' e) as (Ha & _ & Hc & Ht);
        [apply (timer_inv_ref s); [by destruct (truthy chunk)|done]|done]
    end.
Qed.

(** An event that does not end a session arms no timer. *)
Lemma quiet_step_arms_nothing (ev : App.event) (s : App.state) (e : env) :
  ends_session ev = false -> timers e = [] ->
  timers (snd (App.step ev (s, e))) = [].
Proof.
  intros Hev Hts.
  assert (Hclear : timers (App.clear_pending s e) = []).
  { unfold App.clear_pending. destruct (App.unloadTimerRef s) as [id|]; [|done].
    destruct (id =? 0); [done|]. unfold clearTimeout. cbn. by rewrite Hts. }
  destruct ev as [text| | |err| | |chunk [|]| |i| |w|dt|payload| | | | | ];
    try discriminate Hev; cbn [App.step snd]; try done.
  - unfold App.handleTranslate.
    by destruct (negb (truthy (trim (App.inputText s)))).
  - unfold App.button_click, App.handleCancel, App.handleTranslate.
    destruct (App.button_disabled s); [done|].
    destruct (App.isTranslating s); [done|].
    by destruct (negb (truthy (trim (App.inputText s)))).
  - unfold App.cycleMode. by destruct (App.nextMode _).
  - unfold App.toggleTheme. cbn [snd].
    by destruct (strict_eq _ (App.theme s)).
  - destruct (advance_frame dt e) as (_ & -> & _). by rewrite Hts.
Qed.

Lemma busy_inv_step (ev : App.event) (se : App.state * env) :
  busy_inv se -> busy_inv (App.step ev se).
Proof.
  destruct se as [s e]. intros [Hinv Hbusy]. cbn [fst snd] in Hbusy.
  split; [by apply timer_inv_step|].
  rewrite app_isTranslating_step.
  destruct (App.isTranslating s) eqn:Htr.
  - intros Hev. apply negb_true_iff in Hev.
    apply quiet_step_arms_nothing; [done|by apply Hbusy].
  - assert (Hfree : truthy (trim (App.inputText s)) = true ->
                    timers (snd (App.handleTranslate s e)) = [])
      by (intros Hin; by apply handleTranslate_timers).
    destruct ev; cbn [starts_session App.step]; try discriminate.
    + exact Hfree.
    + unfold App.button_click, App.button_disabled. rewrite Htr.
      intros Hin. rewrite Hin. cbn [negb andb]. by apply Hfree.
Qed.

Lemma busy_inv_run (evs : list App.event) (se : App.state * env) :
  busy_inv se -> busy_inv (App.run evs se).
Proof.
  revert se. induction evs as [|ev evs IH]; intros se Hinv; [done|].
  cbn [App.run fold_left]. apply IH. by apply busy_inv_step.
Qed.

Lemma busy_inv_start parseInt prefersDark storage :
  busy_inv (App.start parseInt prefersDark storage).
Proof. split; [apply timer_inv_start|done]. Qed.

Lemma translate_is_not_unload :
  strict_eq (js "translate") (js "unload_model") = false.
Proof. by vm_compute. Qed.

(** C2: in the main window, whatever happened before, the end of a
    session (a chunk with [is_last], or the rejection of the translate
    invocation) leaves exactly one pending timer, due 30,000 ms later,
    whose expiry invokes [unload_model] once.  Before 30,000 ms have
    passed nothing is invoked; a translation started within that window
    clears the timer, and from then on, whatever else happens, no passing
    of time invokes [unload_model] while the window is translating. *)
Theorem idle_unload_timer (parseInt : jsstring -> option Z)
    (prefersDark : bool) (storage : gmap jsstring jsstring)
    (history : list App.event) (ev : App.event) (text : jsstring)
    (dt d : N) :
  ends_session ev = true ->
  truthy (trim text) = true ->
  (dt < 30000)%N ->
  (30000 <= d)%N ->
  let ended :=
    App.step ev (App.run history (App.start parseInt prefersDark storage)) in
  let waited := App.step (App.Elapsed dt) ended in
  let lapsed := App.step (App.Elapsed d) ended in
  let restarted := App.step App.CtrlEnter (App.step (App.Input text) waited) in
  armed ended
  /\ (trace (snd waited) = trace (snd ended)
      /\ timers (snd waited) = timers (snd ended))
  /\ (trace (snd lapsed) = trace (snd ended) ++ [Invoke (js "unload_model") []]
      /\ timers (snd lapsed) = [])
  /\ (timers (snd restarted) = []
      /\ invocations (js "unload_model") (trace (snd restarted))
         = invocations (js "unload_model") (trace (snd ended))
      /\ forall (more : list App.event) (later : N),
           let busy := App.run more restarted in
           if App.isTranslating (fst busy)
           then trace (snd (App.step (App.Elapsed later) busy))
                = trace (snd busy)
           else True).
Proof.
  intros Hev Htext Hdt Hd ended waited lapsed restarted.
  assert (Hinv : timer_inv
            (App.run history (App.start parseInt prefersDark storage)))
    by apply timer_inv_run, timer_inv_start.
  destruct (ends_session_armed ev _ Hinv Hev) as (Harmed & _ & _).
  fold ended in Harmed.
  assert (Hinv' : timer_inv ended) by by apply timer_inv_step.
  destruct ended as [s1 e1] eqn:Hended.
  split; [done|].
  destruct (advance_armed dt s1 e1 Harmed) as [Htr1 Hts1].
  destruct (advance_armed d s1 e1 Harmed) as [Htr2 Hts2].
  apply N.ltb_lt in Hdt. apply N.ltb_ge in Hd.
  rewrite Hdt in Htr1, Hts1. rewrite Hd in Htr2, Hts2.
  rewrite app_nil_r in Htr1.
  split; [done|]. split; [done|].
  subst restarted waited. cbn [App.step].
  set (s2 := App.setInputText text s1).
  assert (Hinv2 : timer_inv (s2, advance dt e1)).
  { apply (timer_inv_ref s1); [done|]. by apply timer_inv_advance. }
  assert (Hin2 : truthy (trim (App.inputText s2)) = true) by done.
  destruct (handleTranslate_timers s2 _ Hinv2 Hin2)
    as (Hts3 & _ & args & Htr3).
  split; [done|]. split.
  - rewrite Htr3, Htr1. unfold invocations. rewrite List.filter_app.
    cbn [List.filter is_invoke]. rewrite translate_is_not_unload.
    by rewrite app_nil_r.
  - intros more later.
    assert (Hended' : busy_inv (s1, e1)).
    { rewrite <- Hended. apply busy_inv_step, busy_inv_run, busy_inv_start. }
    assert (Hbusy : busy_inv
              (App.run more (App.handleTranslate s2 (advance dt e1)))).
    { apply busy_inv_run.
      apply (busy_inv_step App.CtrlEnter (s2, advance dt e1)).
      apply (busy_inv_step (App.Input text) (s1, advance dt e1)).
      by apply (busy_inv_step (App.Elapsed dt) (s1, e1)). }
    destruct (App.run more _) as [s4 e4]. destruct Hbusy as [_ Hfree].
    cbn [fst snd] in *.
    destruct (App.isTranslating s4); [|done].
    cbn [App.step snd]. apply advance_no_timer. by apply Hfree.
Qed.

Lemma idle_unload_timer_witness :
  let ended := App.step (App.Chunk (js "Hi") true) translating_hello in
  armed ended
  /\ trace (snd (App.step (App.Elapsed 30000) ended))
     = trace (snd ended) ++ [Invoke (js "unload_model") []]
  /\ timers
       (snd (App.step App.CtrlEnter
               (App.step (App.Input (js "again"))
                  (App.step (App.Elapsed 29999) ended)))) = [].
Proof.
  destruct (idle_unload_timer (fun _ => None) true ∅
              [App.Input (js "Hello"); App.CtrlEnter]
              (App.Chunk (js "Hi") true) (js "again") 29999 30000)
    as (Harmed & _ & [Hfired _] & [Hcleared _]);
    [reflexivity | reflexivity | reflexivity | by vm_compute |].
  split; [exact Harmed|]. split; [exact Hfired | exact Hcleared].
Defined.

(** C4, as stated, fails: a translate invocation of the popup that is
    rejected arms nothing, the popup has no idle-unload timer. *)
Lemma popup_failure_arms_no_timer :
  let running := Popup.run [Popup.PopupData (js "Hello")] (Popup.start ∅) in
  let failed :=
    Popup.step (Popup.TranslateRejected (js "model not found")) running in
  Popup.loading (fst running) = true
  /\ Popup.loading (fst failed) = false
  /\ timers (snd failed) = [].
Proof. by vm_compute. Qed.

(** C4 (amended): in the main window, whatever happened before, the
    rejection of the translate invocation ends the translating state,
    shows the error text and leaves the idle-unload timer armed.  In the
    popup the rejection ends [loading] and shows the error; the popup has
    no idle-unload timer, and its environment is left as it was. *)
Theorem failure_ends_session (parseInt : jsstring -> option Z)
    (prefersDark : bool) (storage : gmap jsstring jsstring)
    (history : list App.event) (err : jsstring)
    (p : Popup.state) (pe : env) :
  let failed :=
    App.step (App.TranslateRejected err)
      (App.run history (App.start parseInt prefersDark storage)) in
  let failed_popup := Popup.step (Popup.TranslateRejected err) (p, pe) in
  (App.isTranslating (fst failed) = false
   /\ App.translatedText (fst failed) = App.error_prefix ++ err
   /\ armed failed)
  /\ (Popup.loading (fst failed_popup) = false
      /\ Popup.error (fst failed_popup) = Some err
      /\ snd failed_popup = pe).
Proof.
  intros failed failed_popup. split.
  2: { subst failed_popup. unfold Popup.step.
       destruct (rendered_frame (fst (p, pe))
                   (Popup.handle (Popup.TranslateRejected err) (p, pe)))
         as [-> _].
       destruct (rendered_fields (fst (p, pe))
                   (Popup.handle (Popup.TranslateRejected err) (p, pe)))
         as (_ & _ & -> & -> & _).
       by destruct p. }
  assert (Hinv : timer_inv
            (App.run history (App.start parseInt prefersDark storage)))
    by apply timer_inv_run, timer_inv_start.
  destruct (ends_session_armed (App.TranslateRejected err) _ Hinv eq_refl)
    as (Harmed & _ & _).
  fold failed in Harmed. split_and!; [| |done].
  - subst failed.
    destruct (App.run history _) as [s e]. by destruct s.
  - subst failed.
    destruct (App.run history _) as [s e]. by destruct s.
Qed.

(** ** Single flight and cancellation (C3, C5) *)

(** C3, as stated, fails: [handleTranslate] does not look at
    [isTranslating].  Ctrl+Enter in the textarea while a translation is
    running calls it, and a second translate invocation is made; nothing
    is rejected. *)
Lemma second_submit_invokes_translate :
  let again := App.step App.CtrlEnter translating_hello in
  App.isTranslating (fst translating_hello) = true
  /\ length (invocations (js "translate") (trace (snd translating_hello)))
     = 1%nat
  /\ length (invocations (js "translate") (trace (snd again))) = 2%nat
  /\ fst again = fst translating_hello.
Proof. by vm_compute. Qed.

(** C3 (amended): while [isTranslating] is set, the translate/stop
    button of the main window does not translate: a click is handled by
    [handleCancel], which invokes [cancel_translation] and nothing else;
    in the main window without model selection the translate button is
    disabled and a click does nothing. *)
Theorem busy_button_does_not_translate (s : App.state) (q : PlainApp.state)
    (e e' : env) :
  App.isTranslating s = true ->
  PlainApp.isTranslating q = true ->
  App.button_click s e = (s, invoke (js "cancel_translation") [] e)
  /\ PlainApp.button_click q e' = (q, e').
Proof.
  intros Hs Hq. unfold App.button_click, App.button_disabled,
    App.handleCancel, PlainApp.button_click, PlainApp.button_disabled.
  by rewrite Hs, Hq.
Qed.

Lemma busy_button_does_not_translate_witness :
  App.button_click (fst translating_hello) (snd translating_hello)
  = (fst translating_hello,
     invoke (js "cancel_translation") [] (snd translating_hello))
  /\ PlainApp.button_click
       (PlainApp.State (js "Hello") PlainApp.placeholder (js "English")
          (js "Japanese") true) (fresh ∅)
     = (PlainApp.State (js "Hello") PlainApp.placeholder (js "English")
          (js "Japanese") true, fresh ∅).
Proof.
  apply (busy_button_does_not_translate (fst translating_hello)
           (PlainApp.State (js "Hello") PlainApp.placeholder (js "English")
              (js "Japanese") true)); reflexivity.
Defined.

(** C5, as stated, fails in its last part: after a cancel, the
    translating state also ends, with no chunk delivered, when the
    translate invocation is rejected. *)
Lemma rejection_ends_translating_state :
  let cancelled := App.step App.ButtonClick translating_hello in
  let failed :=
    App.step (App.TranslateRejected (js "engine error")) cancelled in
  App.isTranslating (fst translating_hello) = true
  /\ trace (snd cancelled) =
       trace (snd translating_hello) ++ [Invoke (js "cancel_translation") []]
  /\ App.isTranslating (fst cancelled) = true
  /\ App.isTranslating (fst failed) = false.
Proof. by vm_compute. Qed.

(** C5 (amended): [handleCancel] with no translation running does
    nothing at all; with one running it invokes [cancel_translation] and
    leaves the component as it is, and so does the settling of that
    invocation.  The translating state, once set, is ended by the final
    chunk and by the rejection of the translate invocation, and by no
    other event. *)
Theorem cancel_behaviour (s : App.state) (e : env) (ev : App.event) :
  App.handleCancel s e =
    (s, if App.isTranslating s
        then invoke (js "cancel_translation") [] e else e)
  /\ App.handleCancel_settled s e = (s, e)
  /\ App.isTranslating (fst (App.step ev (s, e))) =
       (if App.isTranslating s then negb (ends_session ev)
        else starts_session ev s).
Proof.
  split; [unfold App.handleCancel; by destruct (App.isTranslating s)|].
  split; [done|].
  apply app_isTranslating_step.
Qed.

(** ** The selected model (C7) *)


Lemma nextMode_known (current : jsstring) :
  exists m, App.nextMode current = Some m /\ known m.
Proof.
  unfold App.nextMode, indexOf, App.modes. cbn [indexOf_from].
  repeat match goal with
         | |- context [strict_eq ?a current] => destruct (strict_eq a current)
         end;
    eexists; (split; [by vm_compute | by vm_compute]).
Qed.


Lemma clear_pending_trace (s : App.state) (e : env) :
  trace (App.clear_pending s e) = trace e.
Proof.
  unfold App.clear_pending. destruct (App.unloadTimerRef s) as [id|]; [|done].
  by destruct (id =? 0).
Qed.

Lemma resetUnloadTimer_frame (s : App.state) (e : env) :
  trace (snd (App.resetUnloadTimer s e)) = trace e
  /\ App.modelId (fst (App.resetUnloadTimer s e)) = App.modelId s
  /\ App.theme (fst (App.resetUnloadTimer s e)) = App.theme s.
Proof.
  unfold App.resetUnloadTimer, setTimeout. cbn [fst snd trace].
  by rewrite clear_pending_trace.
Qed.

Lemma advance_trace (dt : N) (e : env) :
  exists n, trace (advance dt e) =
            trace e ++ repeat (Invoke (js "unload_model") []) n.
Proof.
  unfold advance.
  generalize (List.filter (fun x => negb (expired (clock e + Z.of_N dt) x))
                (timers e)) as rest.
  generalize (List.filter (expired (clock e + Z.of_N dt)) (timers e)).
  generalize (trace e) as tr. intros tr ready. revert tr.
  induction ready as [|x ready IH]; intros tr rest.
  - exists 0%nat. cbn. by rewrite app_nil_r.
  - cbn [fold_left]. destruct (cb x).
    destruct (IH (tr ++ [Invoke (js "unload_model") []]) rest) as [n Hn].
    exists (S n). rewrite <- app_assoc in Hn. exact Hn.
Qed.







Lemma known_iff (m : jsstring) :
  known m <->
  m = js "nano" \/ m = js "light" \/ m = js "balanced" \/ m = js "high".
Proof.
  unfold known, includes, App.modes. cbn [existsb].
  rewrite !orb_true_iff, !strict_eq_true. intuition congruence.
Qed.










(** ** Blank input (C8) *)

Lemma trimStart_empty_iff (s : jsstring) :
  trimStart s = [] <-> forallb isWhiteSpace s = true.
Proof.
  induction s as [|c s IH]; cbn [trimStart forallb]; [done|].
  destruct (isWhiteSpace c); cbn [andb]; [done|]. split; discriminate.
Qed.

(** The trimmed form of a string is empty exactly when the string
    consists of white space and line terminators only. *)
Lemma trim_empty_iff (s : jsstring) :
  trim s = [] <-> forallb isWhiteSpace s = true.
Proof.
  unfold trim, trimEnd. split.
  - intros H. apply (f_equal (@rev N)) in H. rewrite rev_involutive in H.
    cbn [rev] in H. apply trimStart_empty_iff in H.
    rewrite forallb_forall in H.
    destruct (trimStart s) as [|c s'] eqn:Hs; [by apply trimStart_empty_iff|].
    assert (Hc : isWhiteSpace c = true).
    { apply H, in_rev. rewrite rev_involutive. by left. }
    clear H. exfalso. revert Hs Hc. clear.
    induction s as [|d s IH]; cbn [trimStart]; [done|].
    destruct (isWhiteSpace d) eqn:Hd; [done|].
    intros [= -> ->]. congruence.
  - intros H. apply trimStart_empty_iff in H. by rewrite H.
Qed.

(** C8: what submitting blank text does.  When the trimmed text is
    empty no translate invocation is made in either window.  In the main
    window nothing changes at all: [handleTranslate] (reached by
    Ctrl+Enter and, with no translation running, by the button) looks at
    the trimmed text before it touches anything, and returns the
    component and its environment as they were.  In the popup
    [translateText] looks at the trimmed text in the same way, but its
    callers change the popup before they call it: the listener of
    ["popup-data"] has stored the payload, emptied the translation, the
    error and the log lines and set [loading]; Ctrl+Enter, [cycleMode],
    [handleSwap] and the model menu, which only ask whether the text is
    non-empty, have emptied the translation and set [loading] when the
    text is white space.  The environment is as before in every case, so
    no invocation is under way that could end [loading]. *)
Theorem blank_submit_changes_popup (s : App.state) (e : env)
    (payload src tgt model : jsstring) (p q : Popup.state) (pe : env) :
  trim (App.inputText s) = [] ->
  trim payload = [] ->
  trim (Popup.text q) = [] ->
  (App.handleTranslate s e = (s, e)
   /\ App.step App.CtrlEnter (s, e) = (s, e)
   /\ App.step App.ButtonClick (s, e) =
        (if App.isTranslating s then App.handleCancel s e else (s, e)))
  /\ Popup.translateText payload src tgt model p pe = (p, pe)
  /\ Popup.step (Popup.PopupData payload) (p, pe)
     = (Popup.setLogs (fun _ => [])
          (Popup.setError None
             (Popup.setLoading true
                (Popup.setTranslation (fun _ => [])
                   (Popup.setText payload p)))),
        pe)
  /\ Forall
       (fun ev =>
          let r := Popup.step ev (q, pe) in
          snd r = pe
          /\ Popup.text (fst r) = Popup.text q
          /\ Popup.loading (fst r) = Popup.loading q || truthy (Popup.text q)
          /\ Popup.translation (fst r)
             = (if truthy (Popup.text q) then [] else Popup.translation q))
       [Popup.CtrlEnter; Popup.CycleMode; Popup.Swap; Popup.SelectModel 0;
        Popup.SelectModel 1; Popup.SelectModel 2; Popup.SelectModel 3].
Proof.
  intros Hs Hp Hq.
  assert (Hblank : App.handleTranslate s e = (s, e)).
  { unfold App.handleTranslate. by rewrite Hs. }
  assert (Hguard : forall t a b m (x : Popup.state),
            trim t = [] -> Popup.translateText t a b m x pe = (x, pe)).
  { intros t a b m x Ht. unfold Popup.translateText. by rewrite Ht. }
  split; [|split; [|split]].
  - split; [done|]. split; [done|].
    cbn [App.step]. unfold App.button_click, App.button_disabled.
    rewrite Hs. by destruct (App.isTranslating s).
  - by apply Hguard.
  - unfold Popup.step, Popup.rendered. cbn [Popup.handle fst].
    unfold Popup.on_popup_data. rewrite (Hguard _ _ _ _ _ Hp). cbn [fst snd].
    unfold Popup.deps_changed.
    replace (Popup.sourceLang (Popup.setLogs _ _)) with (Popup.sourceLang p)
      by by destruct p.
    replace (Popup.targetLang (Popup.setLogs _ _)) with (Popup.targetLang p)
      by by destruct p.
    replace (Popup.modelId (Popup.setLogs _ _)) with (Popup.modelId p)
      by by destruct p.
    by rewrite !strict_eq_refl.
  - assert (Hfields : forall ev,
              snd (Popup.handle ev (q, pe)) = pe ->
              Popup.text (fst (Popup.handle ev (q, pe))) = Popup.text q ->
              Popup.loading (fst (Popup.handle ev (q, pe)))
              = Popup.loading q || truthy (Popup.text q) ->
              Popup.translation (fst (Popup.handle ev (q, pe)))
              = (if truthy (Popup.text q) then [] else Popup.translation q) ->
              let r := Popup.step ev (q, pe) in
              snd r = pe
              /\ Popup.text (fst r) = Popup.text q
              /\ Popup.loading (fst r)
                 = Popup.loading q || truthy (Popup.text q)
              /\ Popup.translation (fst r)
                 = (if truthy (Popup.text q) then []
                    else Popup.translation q)).
    { intros ev He Ht Hl Htr. cbv zeta. unfold Popup.step.
      destruct (rendered_frame (fst (q, pe)) (Popup.handle ev (q, pe)))
        as [-> _].
      destruct (rendered_fields (fst (q, pe)) (Popup.handle ev (q, pe)))
        as (-> & -> & -> & _).
      done. }
    assert (Hmenu : forall i id, Popup.menu_options !! i = Some id ->
              let r := Popup.step (Popup.SelectModel i) (q, pe) in
              snd r = pe
              /\ Popup.text (fst r) = Popup.text q
              /\ Popup.loading (fst r)
                 = Popup.loading q || truthy (Popup.text q)
              /\ Popup.translation (fst r)
                 = (if truthy (Popup.text q) then []
                    else Popup.translation q)).
    { intros i id Hid. apply Hfields; cbn [Popup.handle];
        unfold Popup.select_model; rewrite Hid;
        (destruct (truthy (Popup.text q));
         [rewrite (Hguard _ _ _ _ _ Hq)|]); destruct q; cbn;
        by rewrite ?orb_true_r, ?orb_false_r. }
    repeat (apply Forall_cons_2 || apply Forall_nil_2); cbv beta.
    + apply Hfields; cbn [Popup.handle]; unfold Popup.ctrl_enter;
        (destruct (truthy (Popup.text q));
         [rewrite (Hguard _ _ _ _ _ Hq)|]); destruct q; cbn;
        by rewrite ?orb_true_r, ?orb_false_r.
    + destruct (nextMode_known (Popup.modelId q)) as (m & Hm & _).
      apply Hfields; cbn [Popup.handle]; unfold Popup.cycleMode;
        change (Popup.nextMode (Popup.modelId q))
          with (App.nextMode (Popup.modelId q)); rewrite Hm;
        (destruct (truthy (Popup.text q));
         [rewrite (Hguard _ _ _ _ _ Hq)|]); destruct q; cbn;
        by rewrite ?orb_true_r, ?orb_false_r.
    + apply Hfields; cbn [Popup.handle]; unfold Popup.handleSwap;
        (destruct (truthy (Popup.text q));
         [rewrite (Hguard _ _ _ _ _ Hq)|]); destruct q; cbn;
        by rewrite ?orb_true_r, ?orb_false_r.
    + by apply (Hmenu 0%nat (js "nano")).
    + by apply (Hmenu 1%nat (js "light")).
    + by apply (Hmenu 2%nat (js "balanced")).
    + by apply (Hmenu 3%nat (js "high")).
Qed.

(** The main window with white space typed in is left as it is by
    Ctrl+Enter.  The popup has shown the translation of "hello"; then it
    is handed one space: no invocation is made, the translation shown is
    gone and [loading] is set. *)
Lemma blank_submit_changes_popup_witness :
  let blank := [0x0020]%N in
  let typed :=
    App.step (App.Input [0x0020; 0x000A; 0x0009; 0x3000]%N)
      (App.start (fun _ => None) true ∅) in
  let shown :=
    Popup.run [Popup.PopupData (js "hello");
               Popup.Chunk [0x3053; 0x3093]%N true] (Popup.start ∅) in
  let after := Popup.step (Popup.PopupData blank) shown in
  App.step App.CtrlEnter typed = typed
  /\ (Popup.loading (fst shown) = false
      /\ Popup.translation (fst shown) = [0x3053; 0x3093]%N)
  /\ (snd after = snd shown
      /\ Popup.text (fst after) = blank
      /\ Popup.loading (fst after) = true
      /\ Popup.translation (fst after) = []).
Proof.
  intros blank typed shown after.
  destruct (blank_submit_changes_popup (fst typed) (snd typed)
              blank (js "English") (js "Japanese") (js "balanced")
              (fst shown) (fst after) (snd shown))
    as ((_ & Hmain & _) & _ & Hdata & _);
    [reflexivity | reflexivity | reflexivity |].
  split; [exact Hmain|].
  split; [by vm_compute|].
  assert (Hafter : after = (Popup.setLogs (fun _ => [])
                              (Popup.setError None
                                 (Popup.setLoading true
                                    (Popup.setTranslation (fun _ => [])
                                       (Popup.setText blank (fst shown))))),
                            snd shown)) by exact Hdata.
  rewrite Hafter. cbn [fst snd]. split; [done|]. by destruct (fst shown).
Defined.

(** ** The theme across the two windows (C9) *)

Lemma deliver_snoc (tr : list effect) (x : effect) (p : Popup.state) :
  Bus.deliver (tr ++ [x]) p = Bus.deliver_one x (Bus.deliver tr p).
Proof. unfold Bus.deliver. by rewrite fold_left_app. Qed.

Lemma deliver_theme_changed (tr : list effect) (payload : jsstring)
    (p : Popup.state) :
  Popup.theme (Bus.deliver (tr ++ [Emit (js "theme-changed") payload]) p)
  = payload.
Proof.
  rewrite deliver_snoc. unfold Bus.deliver_one.
  replace (strict_eq (js "theme-changed") (js "theme-changed")) with true
    by by vm_compute.
  done.
Qed.

Lemma deliver_unloads (tr : list effect) (n : nat) (p : Popup.state) :
  Bus.deliver (tr ++ repeat (Invoke (js "unload_model") []) n) p
  = Bus.deliver tr p.
Proof.
  unfold Bus.deliver. rewrite fold_left_app.
  generalize (fold_left (fun acc x => Bus.deliver_one x acc) tr p) as q.
  induction n as [|n IH]; intros q; [done|]. cbn [repeat fold_left]. apply IH.
Qed.

Lemma toggleTheme_publishes (s : App.state) (e : env) :
  App.theme (fst (App.toggleTheme s e)) <> App.theme s
  /\ App.theme (fst (App.toggleTheme s e)) =
       (if strict_eq (App.theme s) (js "dark") then js "light" else js "dark")
  /\ trace (snd (App.toggleTheme s e)) =
       trace e ++ [Emit (js "theme-changed")
                     (App.theme (fst (App.toggleTheme s e)))]
  /\ getItem (js "theme") (snd (App.toggleTheme s e)) =
       Some (App.theme (fst (App.toggleTheme s e))).
Proof.
  unfold App.toggleTheme. cbn [fst snd App.theme App.setTheme].
  assert (Hne : (if strict_eq (App.theme s) (js "dark")
                 then js "light" else js "dark") <> App.theme s).
  { destruct (strict_eq (App.theme s) (js "dark")) eqn:Hd.
    - apply strict_eq_true in Hd. rewrite Hd. by vm_compute.
    - apply strict_eq_false in Hd. congruence. }
  split; [done|]. split; [done|].
  apply strict_eq_false in Hne. rewrite Hne.
  unfold App.theme_effect, emit, record, setItem, getItem.
  cbn [trace localStorage App.theme]. split; [done|].
  apply lookup_insert_eq.
Qed.

Lemma theme_inv_handleTranslate (s : App.state) (e : env) :
  theme_inv (s, e) -> theme_inv (App.handleTranslate s e).
Proof.
  intros Hinv. pose proof Hinv as Hdel.
  unfold theme_inv in Hdel. cbn [fst snd] in Hdel.
  unfold App.handleTranslate.
  destruct (truthy (trim (App.inputText s))); cbn [negb]; [|done].
  intros p. cbn [fst snd]. unfold invoke, record. cbn [trace].
  rewrite clear_pending_trace, deliver_snoc. cbn [Bus.deliver_one].
  rewrite (Hdel p). by destruct s.
Qed.

Lemma theme_inv_step (ev : App.event) (se : App.state * env) :
  theme_inv se -> theme_inv (App.step ev se).
Proof.
  destruct se as [s e]. intros Hse. pose proof Hse as Hinv.
  unfold theme_inv in Hinv. cbn [fst snd] in Hinv.
  destruct ev as [text| | |err| | |chunk is_last| |i| |w|dt|payload| | | | | ]; cbn [App.step].
  - intros p. cbn [fst snd]. rewrite (Hinv p). by destruct s.
  - by apply theme_inv_handleTranslate.
  - unfold App.button_click, App.handleCancel.
    destruct (App.button_disabled s); [done|].
    destruct (App.isTranslating s); [|by apply theme_inv_handleTranslate].
    cbn [negb]. intros p. cbn [fst snd]. unfold invoke, record. cbn [trace].
    rewrite deliver_snoc. cbn [Bus.deliver_one]. apply Hinv.
  - unfold App.handleTranslate_catch. intros p.
    match goal with |- context [App.resetUnloadTimer ?s' e] =>
      destruct (resetUnloadTimer_frame s' e) as (-> & _ & ->)
    end.
    rewrite (Hinv p). by destruct s.
  - done.
  - done.
  - unfold App.on_translation_event. intros p. destruct is_last.
    + match goal with |- context [App.resetUnloadTimer ?s' e] =>
        destruct (resetUnloadTimer_frame s' e) as (-> & _ & ->)
      end.
      rewrite (Hinv p). destruct (truthy chunk); by destruct s.
    + cbn [fst snd]. rewrite (Hinv p). destruct (truthy chunk); by destruct s.
  - unfold App.cycleMode. destruct (App.nextMode _); [|done].
    intros p. cbn [fst snd]. rewrite (Hinv p). by destruct s.
  - unfold App.select_model. intros p. cbn [fst snd]. rewrite (Hinv p).
    destruct (App.menu_options !! i); by destruct s.
  - intros p. destruct (toggleTheme_publishes s e) as (_ & _ & -> & _).
    apply deliver_theme_changed.
  - intros p. cbn [fst snd]. rewrite (Hinv p). unfold App.handleWheel.
    destruct (App.ctrlKey w); by destruct s.
  - intros p. cbn [fst snd]. destruct (advance_trace dt e) as [n ->].
    rewrite deliver_unloads. apply Hinv.
  - intros p. cbn [fst snd]. rewrite (Hinv p). state_frame s.
  - intros p. cbn [fst snd]. rewrite (Hinv p). state_frame s.
  - intros p. cbn [fst snd]. rewrite (Hinv p). state_frame s.
  - intros p. cbn [fst snd]. rewrite (Hinv p). state_frame s.
  - intros p. cbn [fst snd]. rewrite (Hinv p). state_frame s.
  - intros p. cbn [fst snd]. rewrite (Hinv p). state_frame s.
Qed.

Lemma theme_inv_run (evs : list App.event) (se : App.state * env) :
  theme_inv se -> theme_inv (App.run evs se).
Proof.
  revert se. induction evs as [|ev evs IH]; intros se Hinv; [done|].
  cbn [App.run fold_left]. apply IH. by apply theme_inv_step.
Qed.

Lemma theme_inv_start parseInt prefersDark storage :
  theme_inv (App.start parseInt prefersDark storage).
Proof.
  intros p. unfold App.start, App.mount, App.theme_effect, emit, record.
  cbn [fst snd trace]. apply (deliver_theme_changed []).
Qed.

(** Only [toggleTheme] changes the theme. *)
Lemma app_theme_step (ev : App.event) (s : App.state) (e : env) :
  App.theme (fst (App.step ev (s, e))) =
  match ev with
  | App.ToggleTheme => App.theme (fst (App.toggleTheme s e))
  | _ => App.theme s
  end.
Proof.
  destruct ev as [text| | |err| | |chunk is_last| |i| |w|dt|payload| | | | | ];
    cbn [App.step fst].
  - by destruct s.
  - unfold App.handleTranslate.
    destruct (negb (truthy (trim (App.inputText s)))); by destruct s.
  - unfold App.button_click, App.handleCancel, App.handleTranslate.
    destruct (App.button_disabled s); [done|].
    destruct (App.isTranslating s); [done|].
    destruct (negb (truthy (trim (App.inputText s)))); by destruct s.
  - unfold App.handleTranslate_catch, App.resetUnloadTimer. by destruct s.
  - done.
  - done.
  - unfold App.on_translation_event, App.resetUnloadTimer.
    destruct is_last, (truthy chunk); by destruct s.
  - unfold App.cycleMode. destruct (App.nextMode _); by destruct s.
  - unfold App.select_model. destruct (App.menu_options !! i); by destruct s.
  - done.
  - unfold App.handleWheel. destruct (App.ctrlKey w); by destruct s.
  - done.
  - state_frame s.
  - state_frame s.
  - state_frame s.
  - state_frame s.
  - state_frame s.
  - state_frame s.
Qed.

(** ... and only [toggleTheme] writes to [localStorage]. *)
Lemma clear_pending_storage (s : App.state) (e : env) :
  localStorage (App.clear_pending s e) = localStorage e.
Proof.
  unfold App.clear_pending. destruct (App.unloadTimerRef s) as [id|]; [|done].
  by destruct (id =? 0).
Qed.

Lemma app_storage_step (ev : App.event) (s : App.state) (e : env) :
  localStorage (snd (App.step ev (s, e))) =
  match ev with
  | App.ToggleTheme => localStorage (snd (App.toggleTheme s e))
  | _ => localStorage e
  end.
Proof.
  destruct ev as [text| | |err| | |chunk is_last| |i| |w|dt|payload| | | | | ];
    cbn [App.step snd]; try done.
  - unfold App.handleTranslate.
    destruct (negb (truthy (trim (App.inputText s)))); [done|].
    cbn [snd]. unfold invoke, record. cbn [localStorage].
    apply clear_pending_storage.
  - unfold App.button_click, App.handleCancel, App.handleTranslate.
    destruct (App.button_disabled s); [done|].
    destruct (App.isTranslating s); [done|].
    destruct (negb (truthy (trim (App.inputText s)))); [done|].
    cbn [snd]. unfold invoke, record. cbn [localStorage].
    apply clear_pending_storage.
  - unfold App.handleTranslate_catch, App.resetUnloadTimer, setTimeout.
    cbn [snd localStorage]. apply clear_pending_storage.
  - unfold App.on_translation_event, App.resetUnloadTimer, setTimeout.
    destruct is_last; [|done]. cbn [snd localStorage].
    apply clear_pending_storage.
  - unfold App.cycleMode. by destruct (App.nextMode _).
  - by destruct (advance_frame dt e) as (_ & _ & _ & ->).
Qed.

Lemma stored_theme_inv_step (ev : App.event) (se : App.state * env) :
  stored_theme_inv se -> stored_theme_inv (App.step ev se).
Proof.
  destruct se as [s e]. unfold stored_theme_inv, getItem.
  rewrite app_theme_step, app_storage_step. cbn [fst snd].
  destruct ev; try done. intros _.
  destruct (toggleTheme_publishes s e) as (_ & Hth & _ & Hget).
  split; [exact Hget|]. rewrite Hth.
  by destruct (strict_eq (App.theme s) (js "dark")).
Qed.

Lemma stored_theme_inv_start parseInt prefersDark storage :
  stored_theme_inv (App.start parseInt prefersDark storage).
Proof.
  unfold stored_theme_inv, App.start, App.mount, App.theme_effect, emit,
    record, setItem, getItem.
  cbn [fst snd localStorage App.init App.theme]. split.
  - apply lookup_insert_eq.
  - unfold App.initial_theme.
    destruct (getItem (js "theme") (fresh storage)) as [saved|].
    + destruct (truthy saved) eqn:Hs; [done|by destruct prefersDark].
    + by destruct prefersDark.
Qed.

(** So the theme the first effect of the popup reads from storage,
    when it renders first or when its dependencies change, is the theme
    of the main window. *)
Lemma popup_effect_reads_main_theme (parseInt : jsstring -> option Z)
    (prefersDark : bool) (storage : gmap jsstring jsstring)
    (evs : list App.event) (p : Popup.state) :
  let main := App.run evs (App.start parseInt prefersDark storage) in
  Popup.theme (Popup.mount p (snd main)) = App.theme (fst main).
Proof.
  cbv zeta.
  assert (Hinv : stored_theme_inv
            (App.run evs (App.start parseInt prefersDark storage))).
  { generalize (stored_theme_inv_start parseInt prefersDark storage).
    generalize (App.start parseInt prefersDark storage) as se.
    induction evs as [|ev evs IH]; intros se Hse; [done|].
    cbn [App.run fold_left]. apply IH. by apply stored_theme_inv_step. }
  destruct Hinv as [Hget Htruthy]. unfold Popup.mount.
  rewrite Hget, Htruthy. by destruct p.
Qed.

(** A popup that renders for the first time after the change was
    published finds the new theme in the storage the main window wrote
    to. *)
Lemma late_popup_reads_stored_theme (s : App.state) (e : env)
    (p : Popup.state) :
  Popup.theme (Popup.mount p (snd (App.toggleTheme s e)))
  = App.theme (fst (App.toggleTheme s e)).
Proof.
  destruct (toggleTheme_publishes s e) as (_ & Hth & _ & Hget).
  unfold Popup.mount. rewrite Hget, Hth.
  destruct (strict_eq (App.theme s) (js "dark")); by destruct p.
Qed.

(** C9: an event that changes the theme of the main window publishes
    the new value on ["theme-changed"], and [toggleTheme] always changes
    it; the listener of the popup sets its theme to the payload it is
    given; so, whatever happens in the main window, once the popup has
    been delivered what was published, in order, it holds the theme of
    the main window: the last value published wins. *)
Theorem theme_is_broadcast (parseInt : jsstring -> option Z)
    (prefersDark : bool) (storage : gmap jsstring jsstring)
    (evs : list App.event) (ev : App.event) (s : App.state) (e : env)
    (payload : jsstring) (p : Popup.state) :
  let toggled := App.toggleTheme s e in
  let stepped := App.step ev (s, e) in
  let main := App.run evs (App.start parseInt prefersDark storage) in
  (App.theme (fst stepped) = App.theme s
   \/ trace (snd stepped) =
        trace e ++ [Emit (js "theme-changed") (App.theme (fst stepped))])
  /\ (App.theme (fst toggled) <> App.theme s
      /\ trace (snd toggled) =
           trace e ++ [Emit (js "theme-changed") (App.theme (fst toggled))])
  /\ Popup.theme (Popup.on_theme_changed payload p) = payload
  /\ Popup.theme
       (Bus.deliver [Emit (js "theme-changed") (App.theme (fst toggled))] p)
     = App.theme (fst toggled)
  /\ Popup.theme (Bus.deliver (trace (snd main)) p) = App.theme (fst main).
Proof.
  intros toggled stepped main.
  destruct (toggleTheme_publishes s e) as (Hne & _ & Htr & _).
  split.
  { subst stepped. rewrite app_theme_step.
    destruct ev; try by left. by right. }
  split; [done|]. split; [done|]. split.
  - apply (deliver_theme_changed []).
  - apply (theme_inv_run evs _ (theme_inv_start parseInt prefersDark storage)).
Qed.

(** ** The font size (C10) *)

Lemma app_fontSize_step (ev : App.event) (s : App.state) (e : env) :
  App.fontSize (fst (App.step ev (s, e))) =
  match ev with
  | App.WheelMoved w => App.fontSize (App.handleWheel w s)
  | _ => App.fontSize s
  end.
Proof.
  destruct ev as [text| | |err| | |chunk is_last| |i| |w|dt|payload| | | | | ];
    cbn [App.step fst].
  - by destruct s.
  - unfold App.handleTranslate.
    destruct (negb (truthy (trim (App.inputText s)))); by destruct s.
  - unfold App.button_click, App.handleCancel, App.handleTranslate.
    destruct (App.button_disabled s); [done|].
    destruct (App.isTranslating s); [done|].
    destruct (negb (truthy (trim (App.inputText s)))); by destruct s.
  - unfold App.handleTranslate_catch, App.resetUnloadTimer. by destruct s.
  - done.
  - done.
  - unfold App.on_translation_event, App.resetUnloadTimer.
    destruct is_last, (truthy chunk); by destruct s.
  - unfold App.cycleMode. destruct (App.nextMode _); by destruct s.
  - unfold App.select_model. destruct (App.menu_options !! i); by destruct s.
  - unfold App.toggleTheme. by destruct s.
  - done.
  - done.
  - state_frame s.
  - state_frame s.
  - state_frame s.
  - state_frame s.
  - state_frame s.
  - state_frame s.
Qed.

Lemma popup_fontSize_step (ev : Popup.event) (s : Popup.state) (e : env) :
  Popup.fontSize (fst (Popup.step ev (s, e))) =
  match ev with
  | Popup.WheelMoved w => Popup.fontSize (Popup.handleWheel w s)
  | _ => Popup.fontSize s
  end.
Proof.
  unfold Popup.step.
  destruct (rendered_fields (fst (s, e)) (Popup.handle ev (s, e)))
    as (_ & _ & _ & _ & -> & _).
  destruct ev as [payload|chunk is_last|payload|err| | | | |i|w|line| | ];
    cbn [Popup.handle fst].
  - unfold Popup.on_popup_data, Popup.translateText.
    destruct (negb (truthy (trim payload))); by destruct s.
  - unfold Popup.on_translation_event_popup.
    destruct is_last, (truthy chunk); by destruct s.
  - by destruct s.
  - by destruct s.
  - done.
  - unfold Popup.ctrl_enter, Popup.translateText.
    destruct (truthy (Popup.text s)); [|done].
    destruct (negb (truthy (trim (Popup.text s)))); by destruct s.
  - unfold Popup.cycleMode, Popup.translateText.
    destruct (Popup.nextMode _); [|done].
    destruct (truthy (Popup.text s)); [|by destruct s].
    destruct (negb (truthy (trim (Popup.text s)))); by destruct s.
  - unfold Popup.handleSwap, Popup.translateText.
    destruct (truthy (Popup.text s)); [|by destruct s].
    destruct (negb (truthy (trim (Popup.text s)))); by destruct s.
  - unfold Popup.select_model, Popup.translateText.
    destruct (Popup.menu_options !! i); [|done].
    destruct (truthy (Popup.text s)); [|by destruct s].
    destruct (negb (truthy (trim (Popup.text s)))); by destruct s.
  - done.
  - state_frame s.
  - state_frame s.
  - state_frame s.
Qed.

(** One step of each [handleWheel] on the size alone. *)
Lemma app_handleWheel_size (w : App.wheel) (s : App.state) :
  App.fontSize (App.handleWheel w s) =
  if App.ctrlKey w
  then Z.min (Z.max (App.fontSize s + (if gt0 (App.deltaY w) then -2 else 2))
                12) 72
  else App.fontSize s.
Proof. unfold App.handleWheel. destruct (App.ctrlKey w); by destruct s. Qed.

Lemma popup_handleWheel_size (w : Popup.wheel) (s : Popup.state) :
  Popup.fontSize (Popup.handleWheel w s) =
  if Popup.ctrlKey w
  then Z.max 10 (Z.min (Popup.fontSize s - Math_sign (Popup.deltaY w) * 2) 48)
  else Popup.fontSize s.
Proof. unfold Popup.handleWheel. destruct (Popup.ctrlKey w); by destruct s. Qed.

Lemma main_bounds_step (ev : App.event) (se : App.state * env) :
  main_bounds (App.fontSize (fst se)) ->
  main_bounds (App.fontSize (fst (App.step ev se))).
Proof.
  destruct se as [s e]. unfold main_bounds. intros Hb. cbn [fst] in Hb.
  rewrite app_fontSize_step. destruct ev; try done.
  rewrite app_handleWheel_size. destruct (App.ctrlKey w); lia.
Qed.

Lemma popup_bounds_step (ev : Popup.event) (se : Popup.state * env) :
  popup_bounds (Popup.fontSize (fst se)) ->
  popup_bounds (Popup.fontSize (fst (Popup.step ev se))).
Proof.
  destruct se as [s e]. unfold popup_bounds. intros Hb. cbn [fst] in Hb.
  rewrite popup_fontSize_step. destruct ev; try done.
  rewrite popup_handleWheel_size. destruct (Popup.ctrlKey w); lia.
Qed.

(** C10, as stated, fails in the popup: a Ctrl+wheel event with no
    vertical movement leaves the size as it is, where a step of 2 either
    way would have stayed within the bounds. *)
Lemma popup_flat_wheel_is_no_step :
  let p := fst (Popup.start ∅) in
  let p' := Popup.handleWheel (Popup.Wheel true 0) p in
  Popup.fontSize p = 16
  /\ Popup.fontSize p' = 16
  /\ ~ (exists d, (d = 2 \/ d = -2)
                  /\ Popup.fontSize p' = Z.max 10 (Z.min (Popup.fontSize p + d) 48)).
Proof.
  split; [done|]. split; [done|].
  intros (d & [-> | ->] & H); by vm_compute in H.
Qed.

(** C10 (amended): the font size stays within its bounds under every
    sequence of events, [12, 72] in the main window and [10, 48] in the
    popup.  A Ctrl+wheel event moves it by 2 and clamps: in the main
    window down when [deltaY] is positive and up otherwise; in the popup
    against the sign of [deltaY], and not at all when [deltaY] is zero. *)
Theorem font_size_bounds (evs : list App.event) (pevs : list Popup.event)
    (s : App.state) (e : env) (p : Popup.state) (pe : env)
    (deltaY : Q) :
  main_bounds (App.fontSize s) ->
  popup_bounds (Popup.fontSize p) ->
  main_bounds (App.fontSize (fst (App.run evs (s, e))))
  /\ popup_bounds (Popup.fontSize (fst (Popup.run pevs (p, pe))))
  /\ (exists d, (d = 2 \/ d = -2)
        /\ (d = -2 <-> (0 < Qnum deltaY))
        /\ App.fontSize (App.handleWheel (App.Wheel true deltaY) s)
           = Z.min (Z.max (App.fontSize s + d) 12) 72)
  /\ (exists d, (d = 2 \/ d = -2 \/ d = 0)
        /\ (d = -2 <-> (0 < Qnum deltaY))
        /\ (d = 0 <-> Qnum deltaY = 0)
        /\ Popup.fontSize (Popup.handleWheel (Popup.Wheel true deltaY) p)
           = Z.max 10 (Z.min (Popup.fontSize p + d) 48)).
Proof.
  intros Hs Hp. split; [|split; [|split]].
  - revert s e Hs. induction evs as [|ev evs IH]; intros s e Hs; [done|].
    cbn [App.run fold_left].
    destruct (App.step ev (s, e)) as [s' e'] eqn:Hstep.
    apply IH. change s' with (fst (s', e')). rewrite <- Hstep.
    by apply (main_bounds_step ev (s, e)).
  - revert p pe Hp. induction pevs as [|ev pevs IH]; intros p pe Hp; [done|].
    cbn [Popup.run fold_left].
    destruct (Popup.step ev (p, pe)) as [p' pe'] eqn:Hstep.
    apply IH. change p' with (fst (p', pe')). rewrite <- Hstep.
    by apply (popup_bounds_step ev (p, pe)).
  - rewrite app_handleWheel_size. cbn [App.ctrlKey App.deltaY]. unfold gt0.
    destruct (Z.ltb_spec 0 (Qnum deltaY)).
    + exists (-2). split; [by right|]. split; [done|done].
    + exists 2. split; [by left|]. split; [lia|done].
  - rewrite popup_handleWheel_size. cbn [Popup.ctrlKey Popup.deltaY].
    unfold Math_sign.
    destruct (Z.sgn_spec (Qnum deltaY)) as [[H ->]|[[H ->]|[H ->]]].
    + exists (-2). split; [by right; left|]. split; [done|].
      split; lia.
    + exists 0. split; [by right; right|]. split; [lia|].
      split; [done|lia].
    + exists 2. split; [by left|]. split; [lia|].
      split; lia.
Qed.

Lemma font_size_bounds_witness :
  main_bounds
    (App.fontSize
       (fst (App.run (repeat (App.WheelMoved (App.Wheel true (-3))) 40)
               (App.start (fun _ => None) true ∅))))
  /\ popup_bounds
       (Popup.fontSize
          (fst (Popup.run (repeat (Popup.WheelMoved (Popup.Wheel true 3)) 40)
                  (Popup.start ∅)))).
Proof.
  destruct (font_size_bounds
              (repeat (App.WheelMoved (App.Wheel true (-3))) 40)
              (repeat (Popup.WheelMoved (Popup.Wheel true 3)) 40)
              (fst (App.start (fun _ => None) true ∅))
              (snd (App.start (fun _ => None) true ∅))
              (fst (Popup.start ∅)) (snd (Popup.start ∅)) 0)
    as (Hmain & Hpopup & _); [split; by vm_compute | split; by vm_compute |].
  split; [exact Hmain | exact Hpopup].
Defined.

(** The stored size the main window starts from is not checked, but the
    first Ctrl+wheel event brings any size within the bounds. *)
Lemma wheel_brings_within_bounds (deltaY : Q) (s : App.state)
    (p : Popup.state) :
  main_bounds (App.fontSize (App.handleWheel (App.Wheel true deltaY) s))
  /\ popup_bounds (Popup.fontSize (Popup.handleWheel (Popup.Wheel true deltaY) p)).
Proof.
  rewrite app_handleWheel_size, popup_handleWheel_size.
  unfold main_bounds, popup_bounds. cbn [App.ctrlKey Popup.ctrlKey]. lia.
Qed.

Lemma popup_starts_within_bounds (storage : gmap jsstring jsstring) :
  Popup.fontSize (fst (Popup.start storage)) = 16.
Proof.
  unfold Popup.start, Popup.mount. cbn [fst].
  destruct (getItem (js "theme") (fresh storage)) as [t|]; [|done].
  by destruct (truthy t).
Qed.

(** * Further properties *)

(** ** Streams in the popup and in the main window without model
    selection *)

Lemma plain_receive_text (chunks : list (jsstring * bool))
    (s : PlainApp.state) :
  PlainApp.translatedText (PlainApp.receive chunks s) =
  fold_left plain_append (map fst chunks) (PlainApp.translatedText s).
Proof.
  revert s. induction chunks as [|[c l] chunks IH]; intros s; [done|].
  cbn [PlainApp.receive fold_left map fst snd].
  fold (PlainApp.receive chunks). by rewrite IH.
Qed.

Lemma plain_receive_final (chunks : list (jsstring * bool)) (c : jsstring)
    (s : PlainApp.state) :
  PlainApp.isTranslating (PlainApp.receive (chunks ++ [(c, true)]) s) = false.
Proof. unfold PlainApp.receive. by rewrite fold_left_app. Qed.

Lemma plain_accumulate (chunks : list jsstring) :
  (forall k, concat (take k chunks) <> PlainApp.placeholder) ->
  fold_left plain_append chunks PlainApp.placeholder =
  match chunks with
  | [] => PlainApp.placeholder
  | _ :: _ => concat chunks
  end.
Proof.
  induction chunks as [|c chunks IH] using rev_ind; intros Hk; [done|].
  rewrite fold_left_app, concat_app. cbn [fold_left concat].
  rewrite app_nil_r.
  assert (Hpre : forall k, concat (take k chunks) <> PlainApp.placeholder).
  { intros k. destruct (decide (k <= length chunks)%nat) as [Hle|Hgt].
    - specialize (Hk k). by rewrite take_app_le in Hk.
    - rewrite take_ge by lia. specialize (Hk (length chunks)).
      by rewrite take_app_le, take_ge in Hk by lia. }
  rewrite (IH Hpre). unfold plain_append.
  destruct chunks as [|d chunks].
  - by rewrite strict_eq_refl.
  - assert (Hne : strict_eq (concat (d :: chunks)) PlainApp.placeholder
                  = false).
    { apply strict_eq_false. specialize (Hpre (length (d :: chunks))).
      by rewrite take_ge in Hpre by lia. }
    rewrite Hne. by destruct (chunks ++ [c]) eqn:Happ;
      [destruct chunks; discriminate Happ|].
Qed.

(** X1: in the main window without model selection every fragment is
    appended, empty or not, and nothing stands in for missing output: from
    the placeholder, and provided no initial run of the fragments
    concatenates to exactly the text of the placeholder, the text after
    the final chunk is the concatenation of all fragments (the empty
    text when all are empty), and the translating state has ended. *)
Theorem plain_stream_concatenates (fragments : list jsstring)
    (final : jsstring) (s : PlainApp.state) :
  PlainApp.translatedText s = PlainApp.placeholder ->
  (forall k, concat (take k (fragments ++ [final])) <> PlainApp.placeholder) ->
  let s' := PlainApp.receive
              (map (fun f => (f, false)) fragments ++ [(final, true)]) s in
  PlainApp.translatedText s' = concat (fragments ++ [final])
  /\ PlainApp.isTranslating s' = false.
Proof.
  intros Hstart Hk. cbv zeta. split; [|apply plain_receive_final].
  rewrite plain_receive_text, Hstart, map_app, map_map. cbn [map fst].
  rewrite map_id. rewrite (plain_accumulate _ Hk).
  by destruct fragments.
Qed.

Lemma plain_stream_concatenates_witness :
  let s := fst (PlainApp.handleTranslate
                  (PlainApp.State (js "Hello") [] (js "English")
                     (js "Japanese") false) (fresh ∅)) in
  PlainApp.translatedText
    (PlainApp.receive [([], false); (js "Bon", false); (js "jour", true)] s)
  = js "Bonjour"
  /\ PlainApp.translatedText (PlainApp.receive [([], true)] s) = [].
Proof.
  split.
  - apply (plain_stream_concatenates [[]; js "Bon"] (js "jour")
             (fst (PlainApp.handleTranslate
                     (PlainApp.State (js "Hello") [] (js "English")
                        (js "Japanese") false) (fresh ∅)))).
    + reflexivity.
    + intros [|[|[|[|k]]]]; by vm_compute.
  - apply (plain_stream_concatenates [] []
             (fst (PlainApp.handleTranslate
                     (PlainApp.State (js "Hello") [] (js "English")
                        (js "Japanese") false) (fresh ∅)))).
    + reflexivity.
    + intros [|[|k]]; by vm_compute.
Defined.

(** In the main window without model selection, swapping the
    languages twice gives back the component as it was, texts
    included. *)
Lemma plain_swap_involutive (s : PlainApp.state) :
  PlainApp.handleSwapLanguages (PlainApp.handleSwapLanguages s) = s
  /\ PlainApp.inputText (PlainApp.handleSwapLanguages s)
     = PlainApp.translatedText s
  /\ PlainApp.sourceLang (PlainApp.handleSwapLanguages s)
     = PlainApp.targetLang s.
Proof. by destruct s. Qed.

(** ** What each event asks of the backend *)

Lemma rendered_languages (old : Popup.state) (r : Popup.state * env) :
  Popup.sourceLang (fst (Popup.rendered old r)) = Popup.sourceLang (fst r)
  /\ Popup.targetLang (fst (Popup.rendered old r)) = Popup.targetLang (fst r)
  /\ Popup.logs (fst (Popup.rendered old r)) = Popup.logs (fst r).
Proof.
  destruct (rendered_frame old r) as [_ H].
  set (s' := fst (Popup.rendered old r)) in *.
  rewrite <- H. by destruct s'.
Qed.

(** The calls an event of the main window adds to the trace: none, the
    expiry of timers, a cancellation, the publication of the theme, or
    one translate invocation. *)
Lemma app_trace_step (ev : App.event) (s : App.state) (e : env) :
  let r := App.step ev (s, e) in
  exists added,
    trace (snd r) = trace e ++ added
    /\ (added = []
        \/ (exists n, added = repeat (Invoke (js "unload_model") []) n)
        \/ added = [Invoke (js "cancel_translation") []]
        \/ added = [Emit (js "theme-changed") (App.theme (fst r))]
        \/ (added = [request (App.inputText (fst r)) (App.sourceLang (fst r))
                       (App.targetLang (fst r)) (App.modelId (fst r))]
            /\ truthy (trim (App.inputText (fst r))) = true
            /\ App.translatedText (fst r) = App.placeholder
            /\ App.isTranslating (fst r) = true)).
Proof.
  cbv zeta.
  assert (Htranslate :
    exists added,
      trace (snd (App.handleTranslate s e)) = trace e ++ added
      /\ (added = []
          \/ (exists n, added = repeat (Invoke (js "unload_model") []) n)
          \/ added = [Invoke (js "cancel_translation") []]
          \/ added = [Emit (js "theme-changed")
                        (App.theme (fst (App.handleTranslate s e)))]
          \/ (added = [request (App.inputText (fst (App.handleTranslate s e)))
                         (App.sourceLang (fst (App.handleTranslate s e)))
                         (App.targetLang (fst (App.handleTranslate s e)))
                         (App.modelId (fst (App.handleTranslate s e)))]
              /\ truthy (trim (App.inputText (fst (App.handleTranslate s e))))
                 = true
              /\ App.translatedText (fst (App.handleTranslate s e))
                 = App.placeholder
              /\ App.isTranslating (fst (App.handleTranslate s e)) = true))).
  { unfold App.handleTranslate.
    destruct (truthy (trim (App.inputText s))) eqn:Hin; cbn [negb].
    - eexists. split.
      + cbn [snd]. unfold invoke, record. cbn [trace].
        by rewrite clear_pending_trace.
      + do 4 right. by destruct s.
    - exists []. split; [by rewrite app_nil_r|by left]. }
  destruct ev as [text| | |err| | |chunk is_last| |i| |w|dt|payload| | | | | ];
    cbn [App.step].
  - exists []. split; [by rewrite app_nil_r|by left].
  - exact Htranslate.
  - unfold App.button_click, App.handleCancel.
    destruct (App.button_disabled s);
      [exists []; split; [by rewrite app_nil_r|by left]|].
    destruct (App.isTranslating s); [|exact Htranslate].
    cbn [negb]. eexists. split; [done|]. by do 2 right; left.
  - exists []. unfold App.handleTranslate_catch.
    match goal with |- context [App.resetUnloadTimer ?s' e] =>
      destruct (resetUnloadTimer_frame s' e) as (-> & _)
    end.
    split; [by rewrite app_nil_r|by left].
  - exists []. split; [by rewrite app_nil_r|by left].
  - exists []. split; [by rewrite app_nil_r|by left].
  - exists []. unfold App.on_translation_event. destruct is_last.
    + match goal with |- context [App.resetUnloadTimer ?s' e] =>
        destruct (resetUnloadTimer_frame s' e) as (-> & _)
      end.
      split; [by rewrite app_nil_r|by left].
    + split; [by rewrite app_nil_r|by left].
  - exists []. split; [|by left]. rewrite app_nil_r.
    unfold App.cycleMode. by destruct (App.nextMode _).
  - exists []. split; [by rewrite app_nil_r|by left].
  - destruct (toggleTheme_publishes s e) as (_ & _ & Htr & _).
    eexists. split; [exact Htr|]. by do 3 right; left.
  - exists []. split; [by rewrite app_nil_r|by left].
  - destruct (advance_trace dt e) as [n Hn].
    eexists. split; [exact Hn|]. right; left. by exists n.
  - exists []. split; [by rewrite app_nil_r|by left].
  - exists []. split; [by rewrite app_nil_r|by left].
  - exists []. split; [by rewrite app_nil_r|by left].
  - exists []. split; [by rewrite app_nil_r|by left].
  - exists []. split; [by rewrite app_nil_r|by left].
  - exists []. split; [by rewrite app_nil_r|by left].
Qed.

(** [translateText] called with the text, the languages and the model
    the popup holds afterwards, after the translation was cleared and
    [loading] set. *)
Lemma translateText_request (s : Popup.state) (e : env) :
  Popup.translation s = [] -> Popup.loading s = true ->
  let r := Popup.translateText (Popup.text s) (Popup.sourceLang s)
             (Popup.targetLang s) (Popup.modelId s) s e in
  fst r = s
  /\ (snd r = e
      \/ (trace (snd r) =
            trace e ++ [request (Popup.text s) (Popup.sourceLang s)
                          (Popup.targetLang s) (Popup.modelId s)]
          /\ truthy (trim (Popup.text s)) = true)).
Proof.
  intros _ _. unfold Popup.translateText.
  destruct (truthy (trim (Popup.text s))); cbn [negb]; split; try done.
  - by right.
  - by left.
Qed.

(** The calls an event of the popup adds to the trace: none, or one
    translate invocation for what the popup then holds, made with the
    translation cleared and [loading] set. *)
Lemma popup_trace_step (ev : Popup.event) (s : Popup.state) (e : env) :
  let r := Popup.step ev (s, e) in
  snd r = e
  \/ (trace (snd r) =
        trace e ++ [request (Popup.text (fst r)) (Popup.sourceLang (fst r))
                      (Popup.targetLang (fst r)) (Popup.modelId (fst r))]
      /\ truthy (trim (Popup.text (fst r))) = true
      /\ Popup.translation (fst r) = []
      /\ Popup.loading (fst r) = true).
Proof.
  cbv zeta. unfold Popup.step.
  destruct (rendered_frame (fst (s, e)) (Popup.handle ev (s, e))) as [-> _].
  destruct (rendered_fields (fst (s, e)) (Popup.handle ev (s, e)))
    as (-> & -> & -> & _ & _ & ->).
  destruct (rendered_languages (fst (s, e)) (Popup.handle ev (s, e)))
    as (-> & -> & _).
  assert (Hcall : forall s' : Popup.state,
    Popup.translation s' = [] -> Popup.loading s' = true ->
    let r := Popup.translateText (Popup.text s') (Popup.sourceLang s')
               (Popup.targetLang s') (Popup.modelId s') s' e in
    snd r = e
    \/ (trace (snd r) =
          trace e ++ [request (Popup.text (fst r)) (Popup.sourceLang (fst r))
                        (Popup.targetLang (fst r)) (Popup.modelId (fst r))]
        /\ truthy (trim (Popup.text (fst r))) = true
        /\ Popup.translation (fst r) = []
        /\ Popup.loading (fst r) = true)).
  { intros s' Htr Hld. cbv zeta.
    destruct (translateText_request s' e Htr Hld) as [-> [He|[Ht Hin]]];
      [by left|by right]. }
  destruct ev as [payload|chunk is_last|payload|err| | | | |i|w|line| | ];
    cbn [Popup.handle]; try by left.
  - unfold Popup.on_popup_data.
    exact (Hcall (Popup.setLogs (fun _ => [])
                    (Popup.setError None
                       (Popup.setLoading true
                          (Popup.setTranslation (fun _ => [])
                             (Popup.setText payload s))))) eq_refl eq_refl).
  - unfold Popup.ctrl_enter. destruct (truthy (Popup.text s)); [|by left].
    exact (Hcall (Popup.setLoading true
                    (Popup.setTranslation (fun _ => []) s)) eq_refl eq_refl).
  - unfold Popup.cycleMode. destruct (Popup.nextMode _) as [m|]; [|by left].
    destruct (truthy (Popup.text s)); [|by left].
    exact (Hcall (Popup.setLoading true
                    (Popup.setTranslation (fun _ => [])
                       (Popup.setModelId m s))) eq_refl eq_refl).
  - unfold Popup.handleSwap. destruct (truthy (Popup.text s)); [|by left].
    exact (Hcall (Popup.setLoading true
                    (Popup.setTranslation (fun _ => [])
                       (Popup.setTargetLang (Popup.sourceLang s)
                          (Popup.setSourceLang (Popup.targetLang s) s))))
             eq_refl eq_refl).
  - unfold Popup.select_model.
    destruct (Popup.menu_options !! i) as [id|]; [|by left].
    destruct (truthy (Popup.text s)); [|by left].
    exact (Hcall (Popup.setLoading true
                    (Popup.setTranslation (fun _ => [])
                       (Popup.setShowModelMenu false
                          (Popup.setModelId id s)))) eq_refl eq_refl).
Qed.

Lemma request_not_blank (text src tgt model : jsstring) :
  text_not_blank (request text src tgt model) = truthy (trim text).
Proof.
  unfold text_not_blank, request, arg. cbn [List.find fst snd].
  replace (strict_eq (js "translate") (js "translate")) with true
    by by vm_compute.
  by replace (strict_eq (js "text") (js "text")) with true by by vm_compute.
Qed.

Lemma unloads_not_blank (n : nat) :
  forallb text_not_blank (repeat (Invoke (js "unload_model") []) n) = true.
Proof. induction n as [|n IH]; [done|]. cbn [repeat forallb]. by rewrite IH. Qed.

Lemma app_not_blank_step (ev : App.event) (s : App.state) (e : env) :
  forallb text_not_blank (trace e) = true ->
  forallb text_not_blank (trace (snd (App.step ev (s, e)))) = true.
Proof.
  intros Htr. destruct (app_trace_step ev s e) as (added & -> & Hadded).
  rewrite forallb_app, Htr. cbn [andb].
  destruct Hadded as [->|[[n ->]|[->|[->|(-> & Hin & _)]]]]; try done.
  - apply unloads_not_blank.
  - cbn [forallb]. by rewrite request_not_blank, Hin.
Qed.

Lemma popup_not_blank_step (ev : Popup.event) (s : Popup.state) (e : env) :
  forallb text_not_blank (trace e) = true ->
  forallb text_not_blank (trace (snd (Popup.step ev (s, e)))) = true.
Proof.
  intros Htr. destruct (popup_trace_step ev s e) as [->|(-> & Hin & _)];
    [done|].
  rewrite forallb_app, Htr. cbn [andb forallb].
  by rewrite request_not_blank, Hin.
Qed.

(** X2: neither window ever asks for the translation of blank text:
    under every sequence of events, every translate invocation recorded
    carries a text whose trimmed form is not empty. *)
Theorem never_translates_blank_text (parseInt : jsstring -> option Z)
    (prefersDark : bool) (storage : gmap jsstring jsstring)
    (evs : list App.event) (pevs : list Popup.event) :
  forallb text_not_blank
    (trace (snd (App.run evs (App.start parseInt prefersDark storage))))
  = true
  /\ forallb text_not_blank
       (trace (snd (Popup.run pevs (Popup.start storage)))) = true.
Proof.
  split.
  - assert (H0 : forallb text_not_blank
                   (trace (snd (App.start parseInt prefersDark storage)))
                 = true) by done.
    revert H0. generalize (App.start parseInt prefersDark storage) as se.
    induction evs as [|ev evs IH]; intros [s e] H0; [done|].
    cbn [App.run fold_left].
    destruct (App.step ev (s, e)) as [s' e'] eqn:Hstep.
    apply (IH (s', e')). change e' with (snd (s', e')). rewrite <- Hstep.
    by apply app_not_blank_step.
  - assert (H0 : forallb text_not_blank (trace (snd (Popup.start storage)))
                 = true) by done.
    revert H0. generalize (Popup.start storage) as se.
    induction pevs as [|ev pevs IH]; intros [s e] H0; [done|].
    cbn [Popup.run fold_left].
    destruct (Popup.step ev (s, e)) as [s' e'] eqn:Hstep.
    apply (IH (s', e')). change e' with (snd (s', e')). rewrite <- Hstep.
    by apply popup_not_blank_step.
Qed.

Lemma unloads_are_not_translates (n : nat) :
  invocations (js "translate") (repeat (Invoke (js "unload_model") []) n) = [].
Proof. induction n as [|n IH]; [done|]. cbn [repeat]. exact IH. Qed.

(** X3: a translate invocation always asks for what the window shows
    after the event that made it.  An event of either window adds at most
    one translate invocation; it carries the text, the two languages and
    the model the window then holds, and it is made with the display
    reset: the placeholder and [isTranslating] in the main window, an
    empty translation and [loading] in the popup. *)
Theorem request_matches_selection (ev : App.event) (s : App.state)
    (pev : Popup.event) (p : Popup.state) (e pe : env) :
  let r := App.step ev (s, e) in
  let q := Popup.step pev (p, pe) in
  (invocations (js "translate") (trace (snd r))
   = invocations (js "translate") (trace e)
   \/ (invocations (js "translate") (trace (snd r))
       = invocations (js "translate") (trace e)
         ++ [request (App.inputText (fst r)) (App.sourceLang (fst r))
               (App.targetLang (fst r)) (App.modelId (fst r))]
       /\ App.translatedText (fst r) = App.placeholder
       /\ App.isTranslating (fst r) = true))
  /\ (trace (snd q) = trace pe
      \/ (trace (snd q)
          = trace pe
            ++ [request (Popup.text (fst q)) (Popup.sourceLang (fst q))
                  (Popup.targetLang (fst q)) (Popup.modelId (fst q))]
          /\ Popup.translation (fst q) = []
          /\ Popup.loading (fst q) = true)).
Proof.
  cbv zeta. split.
  - destruct (app_trace_step ev s e) as (added & -> & Hadded).
    unfold invocations. rewrite List.filter_app.
    destruct Hadded as [->|[[n ->]|[->|[->|(-> & _ & Htext & Hbusy)]]]].
    + left. by rewrite app_nil_r.
    + left. fold (invocations (js "translate")
                    (repeat (Invoke (js "unload_model") []) n)).
      by rewrite unloads_are_not_translates, app_nil_r.
    + left. by rewrite app_nil_r.
    + left. by rewrite app_nil_r.
    + right. split; [|done]. f_equal.
  - destruct (popup_trace_step pev p pe) as [->|(-> & _ & Htr & Hld)];
      [by left|by right].
Qed.

(** ** How often the model is unloaded *)

Lemma enqueue_length (t : timer) (ts : list timer) :
  length (enqueue t ts) = S (length ts).
Proof.
  induction ts as [|u ts IH]; [done|]. cbn [enqueue].
  destruct (due u <=? due t); cbn [length]; by rewrite ?IH.
Qed.

Lemma clear_pending_length (s : App.state) (e : env) :
  (length (timers (App.clear_pending s e)) <= length (timers e))%nat.
Proof.
  unfold App.clear_pending. destruct (App.unloadTimerRef s) as [id|]; [|done].
  destruct (id =? 0); [done|]. unfold clearTimeout. cbn [timers set_timers].
  apply List.filter_length_le.
Qed.

Lemma advance_exact (dt : N) (e : env) :
  trace (advance dt e) =
  trace e ++ map (fun _ => Invoke (js "unload_model") [])
               (List.filter (expired (clock e + Z.of_N dt)) (timers e)).
Proof.
  unfold advance.
  generalize (List.filter (fun x => negb (expired (clock e + Z.of_N dt) x))
                (timers e)) as rest.
  generalize (List.filter (expired (clock e + Z.of_N dt)) (timers e)).
  generalize (trace e) as tr. intros tr ready. revert tr.
  induction ready as [|x ready IH]; intros tr rest.
  - cbn. by rewrite app_nil_r.
  - cbn [fold_left map]. destruct (cb x).
    pose proof (IH (tr ++ [Invoke (js "unload_model") []]) rest) as Hn.
    rewrite <- app_assoc in Hn. exact Hn.
Qed.

Lemma unloads_app (tr tr' : list effect) :
  unloads (tr ++ tr') = (unloads tr + unloads tr')%nat.
Proof. unfold unloads, invocations. by rewrite List.filter_app, length_app. Qed.

Lemma unloads_fired (ts : list timer) :
  unloads (map (fun _ => Invoke (js "unload_model") []) ts) = length ts.
Proof. induction ts as [|t ts IH]; [done|]. cbn [map]. cbn. by rewrite <- IH. Qed.

(** No event makes the unloads done and the timers pending grow,
    except the end of a session, by one. *)
Lemma unload_budget_step (ev : App.event) (s : App.state) (e : env) :
  let r := App.step ev (s, e) in
  (unloads (trace (snd r)) + length (timers (snd r))
   <= unloads (trace e) + length (timers e)
      + (if ends_session ev then 1 else 0))%nat.
Proof.
  cbv zeta.
  assert (Hreset : forall s' : App.state,
    (unloads (trace (snd (App.resetUnloadTimer s' e)))
     + length (timers (snd (App.resetUnloadTimer s' e)))
     <= unloads (trace e) + length (timers e) + 1)%nat).
  { intros s'. destruct (resetUnloadTimer_frame s' e) as (-> & _).
    unfold App.resetUnloadTimer, setTimeout. cbn [snd timers].
    rewrite enqueue_length. pose proof (clear_pending_length s' e). lia. }
  assert (Htranslate :
    (unloads (trace (snd (App.handleTranslate s e)))
     + length (timers (snd (App.handleTranslate s e)))
     <= unloads (trace e) + length (timers e) + 0)%nat).
  { unfold App.handleTranslate.
    destruct (negb (truthy (trim (App.inputText s)))); cbn [snd]; [lia|].
    unfold invoke, record. cbn [trace timers].
    rewrite clear_pending_trace, unloads_app.
    pose proof (clear_pending_length s e).
    replace (unloads [Invoke (js "translate") _]) with 0%nat by done. lia. }
  destruct ev as [text| | |err| | |chunk is_last| |i| |w|dt|payload| | | | | ];
    cbn [App.step ends_session snd].
  - lia.
  - exact Htranslate.
  - unfold App.button_click, App.handleCancel.
    destruct (App.button_disabled s); cbn [snd]; [lia|].
    destruct (App.isTranslating s); [|exact Htranslate].
    cbn [negb snd]. unfold invoke, record. cbn [trace timers].
    rewrite unloads_app.
    replace (unloads [Invoke (js "cancel_translation") []]) with 0%nat
      by done.
    lia.
  - apply Hreset.
  - lia.
  - unfold App.handleCancel_settled. cbn [snd]. lia.
  - unfold App.on_translation_event. destruct is_last; [apply Hreset|].
    cbn [snd]. lia.
  - unfold App.cycleMode. destruct (App.nextMode _); cbn [snd]; lia.
  - lia.
  - unfold App.toggleTheme. cbn [snd].
    destruct (strict_eq _ (App.theme s)); [lia|].
    unfold App.theme_effect, emit, record, setItem. cbn [trace timers].
    rewrite unloads_app. cbn. lia.
  - lia.
  - rewrite advance_exact, unloads_app, unloads_fired.
    destruct (advance_frame dt e) as (_ & -> & _).
    pose proof (List.filter_length (expired (clock e + Z.of_N dt)) (timers e)).
    lia.
  - lia.
  - lia.
  - lia.
  - lia.
  - lia.
  - lia.
Qed.

(** X4: the model is unloaded at most once for each session that ended.
    Under every sequence of events of the main window, the number of
    [unload_model] invocations made, together with the timers still
    pending, never exceeds the number of events that ended a session. *)
Theorem unloads_bounded_by_session_ends (parseInt : jsstring -> option Z)
    (prefersDark : bool) (storage : gmap jsstring jsstring)
    (evs : list App.event) :
  let r := App.run evs (App.start parseInt prefersDark storage) in
  (unloads (trace (snd r)) + length (timers (snd r))
   <= length (List.filter ends_session evs))%nat.
Proof.
  cbv zeta.
  assert (Hgen : forall se : App.state * env,
    (unloads (trace (snd (App.run evs se)))
     + length (timers (snd (App.run evs se)))
     <= unloads (trace (snd se)) + length (timers (snd se))
        + length (List.filter ends_session evs))%nat).
  { induction evs as [|ev evs IH]; intros [s e]; [cbn; lia|].
    cbn [App.run fold_left List.filter].
    fold (App.run evs (App.step ev (s, e))).
    specialize (IH (App.step ev (s, e))).
    pose proof (unload_budget_step ev s e) as Hstep. cbv zeta in Hstep.
    cbn [snd] in *. destruct (ends_session ev); cbn [length]; lia. }
  specialize (Hgen (App.start parseInt prefersDark storage)).
  replace (unloads (trace (snd (App.start parseInt prefersDark storage))))
    with 0%nat in Hgen by done.
  replace (length (timers (snd (App.start parseInt prefersDark storage))))
    with 0%nat in Hgen by done.
  lia.
Qed.

(** ** The end of a session on screen *)

(** X5: in the main window the end of a session, by the final chunk or
    by the rejection of the translate invocation, never leaves the
    placeholder on screen: afterwards the translating state is over and
    the text is not the placeholder. *)
Theorem session_end_clears_placeholder (ev : App.event) (s : App.state)
    (e : env) :
  ends_session ev = true ->
  App.isTranslating (fst (App.step ev (s, e))) = false
  /\ App.translatedText (fst (App.step ev (s, e))) <> App.placeholder.
Proof.
  intros Hev.
  destruct ev as [| | |err| | |chunk [|]| | | | | | | | | | |];
    try discriminate Hev; cbn [App.step].
  - unfold App.handleTranslate_catch, App.resetUnloadTimer.
    split; [by destruct s|]. destruct s; cbn. discriminate.
  - rewrite on_final_chunk_text. split.
    + unfold App.on_translation_event, App.resetUnloadTimer.
      destruct (truthy chunk); by destruct s.
    + unfold fallback.
      destruct (strict_eq (append_chunk (App.translatedText s) chunk)
                  App.placeholder) eqn:Hp.
      * by vm_compute.
      * by apply strict_eq_false.
Qed.

Lemma session_end_clears_placeholder_witness :
  App.translatedText (fst translating_hello) = App.placeholder
  /\ App.translatedText
       (fst (App.step (App.Chunk [] true) translating_hello))
     <> App.placeholder
  /\ App.translatedText
       (fst (App.step (App.TranslateRejected (js "no model")) translating_hello))
     <> App.placeholder.
Proof.
  split; [reflexivity|]. split.
  - apply (session_end_clears_placeholder (App.Chunk [] true)
             (fst translating_hello) (snd translating_hello)).
    reflexivity.
  - apply (session_end_clears_placeholder
             (App.TranslateRejected (js "no model"))
             (fst translating_hello) (snd translating_hello)).
    reflexivity.
Defined.

(** ** The cycle of the modes *)

Lemma nextMode_cycle (m : jsstring) :
  known m ->
  exists m1 m2 m3,
    App.nextMode m = Some m1 /\ App.nextMode m1 = Some m2
    /\ App.nextMode m2 = Some m3 /\ App.nextMode m3 = Some m
    /\ m1 <> m /\ m2 <> m /\ m3 <> m.
Proof.
  intros Hm. apply known_iff in Hm.
  destruct Hm as [-> | [-> | [-> | ->]]].
  - exists (js "light"), (js "balanced"), (js "high"). by vm_compute.
  - exists (js "balanced"), (js "high"), (js "nano"). by vm_compute.
  - exists (js "high"), (js "nano"), (js "light"). by vm_compute.
  - exists (js "nano"), (js "light"), (js "balanced"). by vm_compute.
Qed.

(** X6: Ctrl+M goes round the four modes.  From a known mode, four
    presses bring the main window back exactly as it was, and no fewer
    do; in the popup the selected model is back after four presses. *)
Theorem mode_cycle_has_period_four (s : App.state) (e : env)
    (p : Popup.state) (pe : env) :
  known (App.modelId s) ->
  known (Popup.modelId p) ->
  App.run [App.CycleMode; App.CycleMode; App.CycleMode; App.CycleMode] (s, e)
  = (s, e)
  /\ App.modelId (fst (App.run [App.CycleMode] (s, e))) <> App.modelId s
  /\ App.modelId (fst (App.run [App.CycleMode; App.CycleMode] (s, e)))
     <> App.modelId s
  /\ App.modelId
       (fst (App.run [App.CycleMode; App.CycleMode; App.CycleMode] (s, e)))
     <> App.modelId s
  /\ Popup.modelId
       (fst (Popup.run [Popup.CycleMode; Popup.CycleMode; Popup.CycleMode;
                        Popup.CycleMode] (p, pe)))
     = Popup.modelId p.
Proof.
  intros Hs Hp.
  destruct (nextMode_cycle _ Hs) as (m1 & m2 & m3 & H1 & H2 & H3 & H4 & Hn).
  assert (Hcycle : forall (t : App.state) (m : jsstring),
    App.nextMode (App.modelId t) = Some m ->
    App.step App.CycleMode (t, e) = (App.setModelId m t, e)).
  { intros t m Hm. cbn [App.step]. unfold App.cycleMode. by rewrite Hm. }
  cbn [App.run fold_left].
  rewrite (Hcycle s m1 H1).
  rewrite (Hcycle (App.setModelId m1 s) m2 H2).
  rewrite (Hcycle (App.setModelId m2 (App.setModelId m1 s)) m3 H3).
  rewrite (Hcycle (App.setModelId m3 (App.setModelId m2 (App.setModelId m1 s)))
             (App.modelId s) H4).
  cbn [fst App.modelId App.setModelId].
  split_and!.
  - by destruct s.
  - by destruct Hn.
  - by destruct Hn as (_ & ? & _).
  - by destruct Hn as (_ & _ & ?).
  - clear H1 H2 H3 H4 Hn m1 m2 m3.
    destruct (nextMode_cycle _ Hp) as (m1 & m2 & m3 & H1 & H2 & H3 & H4 & _).
    assert (Hstep : forall (q : Popup.state) (qe : env) (m : jsstring),
      Popup.nextMode (Popup.modelId q) = Some m ->
      Popup.modelId (fst (Popup.step Popup.CycleMode (q, qe))) = m).
    { intros q qe m Hm. unfold Popup.step.
      destruct (rendered_fields (fst (q, qe))
                  (Popup.handle Popup.CycleMode (q, qe)))
        as (_ & _ & _ & _ & _ & ->).
      cbn [Popup.handle]. unfold Popup.cycleMode. rewrite Hm.
      destruct (truthy (Popup.text q)); [|by destruct q].
      unfold Popup.translateText. destruct (negb _); by destruct q. }
    cbn [Popup.run fold_left].
    destruct (Popup.step Popup.CycleMode (p, pe)) as [p1 e1] eqn:E1.
    destruct (Popup.step Popup.CycleMode (p1, e1)) as [p2 e2] eqn:E2.
    destruct (Popup.step Popup.CycleMode (p2, e2)) as [p3 e3] eqn:E3.
    pose proof (Hstep p pe m1 H1) as G1. rewrite E1 in G1. cbn [fst] in G1.
    pose proof (Hstep p1 e1 m2) as G2. rewrite E2, G1 in G2.
    specialize (G2 H2). cbn [fst] in G2.
    pose proof (Hstep p2 e2 m3) as G3. rewrite E3, G2 in G3.
    specialize (G3 H3). cbn [fst] in G3.
    apply Hstep. by rewrite G3.
Qed.

Lemma mode_cycle_has_period_four_witness :
  App.run [App.CycleMode; App.CycleMode; App.CycleMode; App.CycleMode]
    translating_hello = translating_hello.
Proof.
  destruct (mode_cycle_has_period_four (fst translating_hello)
              (snd translating_hello) (fst (Popup.start ∅))
              (snd (Popup.start ∅))) as [H _]; [reflexivity | reflexivity |].
  exact H.
Defined.

(** ** The theme *)

(** X7: the theme button only ever selects dark or light.  After one
    click the theme is one of the two; a second click gives back the
    theme there was when it was dark or light, and gives light when it was
    anything else (a value found in storage). *)
Theorem toggleTheme_twice (s : App.state) (e : env) :
  let once := App.toggleTheme s e in
  let twice := App.toggleTheme (fst once) (snd once) in
  (App.theme (fst once) = js "dark" \/ App.theme (fst once) = js "light")
  /\ App.theme (fst twice) =
       (if strict_eq (App.theme s) (js "dark")
           || strict_eq (App.theme s) (js "light")
        then App.theme s else js "light")
  /\ trace (snd twice) =
       trace e ++ [Emit (js "theme-changed") (App.theme (fst once));
                   Emit (js "theme-changed") (App.theme (fst twice))].
Proof.
  cbv zeta.
  destruct (toggleTheme_publishes s e) as (_ & H1 & T1 & _).
  destruct (toggleTheme_publishes (fst (App.toggleTheme s e))
              (snd (App.toggleTheme s e))) as (_ & H2 & T2 & _).
  split_and!.
  - rewrite H1. destruct (strict_eq (App.theme s) (js "dark")); auto.
  - rewrite H2, H1.
    destruct (strict_eq (App.theme s) (js "dark")) eqn:Hd.
    + apply strict_eq_true in Hd. rewrite Hd. by vm_compute.
    + destruct (strict_eq (App.theme s) (js "light")) eqn:Hl.
      * apply strict_eq_true in Hl. rewrite Hl. by vm_compute.
      * by vm_compute.
  - rewrite T2, T1. by rewrite <- app_assoc.
Qed.

(** X8: the theme of the main window outlives the window.  Whatever
    happened in a run, a main window started later on the storage that
    run left behind starts with the theme the run ended with, whatever the
    system preference. *)
Theorem theme_survives_restart (parseInt parseInt' : jsstring -> option Z)
    (prefersDark prefersDark' : bool) (storage : gmap jsstring jsstring)
    (evs : list App.event) :
  let before := App.run evs (App.start parseInt prefersDark storage) in
  App.theme
    (fst (App.start parseInt' prefersDark' (localStorage (snd before))))
  = App.theme (fst before).
Proof.
  cbv zeta.
  assert (Hinv : stored_theme_inv
            (App.run evs (App.start parseInt prefersDark storage))).
  { generalize (stored_theme_inv_start parseInt prefersDark storage).
    generalize (App.start parseInt prefersDark storage) as se.
    induction evs as [|ev evs IH]; intros se Hse; [done|].
    cbn [App.run fold_left]. apply IH. by apply stored_theme_inv_step. }
  set (before := App.run evs (App.start parseInt prefersDark storage)) in *.
  destruct Hinv as [Hget Htruthy].
  change (App.theme
            (fst (App.start parseInt' prefersDark'
                    (localStorage (snd before)))))
    with (App.initial_theme (fresh (localStorage (snd before))) prefersDark').
  unfold App.initial_theme.
  change (getItem (js "theme") (fresh (localStorage (snd before))))
    with (getItem (js "theme") (snd before)).
  by rewrite Hget, Htruthy.
Qed.

(** ** The languages *)

Lemma app_languages_step (ev : App.event) (s : App.state) (e : env) :
  let s' := fst (App.step ev (s, e)) in
  (App.sourceLang s', App.targetLang s') =
  match ev with
  | App.SwapLanguages =>
      (App.sourceLang (App.handleSwapLanguages s),
       App.targetLang (App.handleSwapLanguages s))
  | App.SourceLangClick =>
      (App.sourceLang (App.source_lang_click s), App.targetLang s)
  | App.TargetLangClick =>
      (App.sourceLang s, App.targetLang (App.target_lang_click s))
  | _ => (App.sourceLang s, App.targetLang s)
  end.
Proof.
  cbv zeta.
  destruct ev as [text| | |err| | |chunk is_last| |i| |w|dt|payload| | | | | ];
    cbn [App.step fst].
  - by destruct s.
  - unfold App.handleTranslate.
    destruct (negb (truthy (trim (App.inputText s)))); by destruct s.
  - unfold App.button_click, App.handleCancel, App.handleTranslate.
    destruct (App.button_disabled s); [done|].
    destruct (App.isTranslating s); [done|].
    destruct (negb (truthy (trim (App.inputText s)))); by destruct s.
  - unfold App.handleTranslate_catch, App.resetUnloadTimer. by destruct s.
  - done.
  - done.
  - unfold App.on_translation_event, App.resetUnloadTimer.
    destruct is_last, (truthy chunk); by destruct s.
  - unfold App.cycleMode. destruct (App.nextMode _); by destruct s.
  - unfold App.select_model. destruct (App.menu_options !! i); by destruct s.
  - unfold App.toggleTheme. by destruct s.
  - unfold App.handleWheel. destruct (App.ctrlKey w); by destruct s.
  - done.
  - unfold App.on_debug_log.
    destruct (str_includes _ _), (str_includes _ _); by destruct s.
  - done.
  - by destruct s.
  - by destruct s.
  - by destruct s.
  - unfold App.click_outside. destruct (App.showModelMenu s); by destruct s.
Qed.

Lemma lang_ok_flip (l a b : jsstring) :
  lang_ok a -> lang_ok b -> lang_ok (if strict_eq l a then b else a).
Proof. intros Ha Hb. by destruct (strict_eq l a). Qed.

Lemma app_languages_ok_step (ev : App.event) (s : App.state) (e : env) :
  lang_ok (App.sourceLang s) /\ lang_ok (App.targetLang s) ->
  lang_ok (App.sourceLang (fst (App.step ev (s, e))))
  /\ lang_ok (App.targetLang (fst (App.step ev (s, e)))).
Proof.
  intros [Hs Ht]. pose proof (app_languages_step ev s e) as Hstep.
  cbv zeta in Hstep.
  pose proof (f_equal fst Hstep) as Hsrc.
  pose proof (f_equal snd Hstep) as Htgt.
  cbn [fst snd] in Hsrc, Htgt. rewrite Hsrc, Htgt. clear Hstep Hsrc Htgt.
  assert (HE : lang_ok (js "English")) by by left.
  assert (HJ : lang_ok (js "Japanese")) by by right.
  destruct ev; cbn [fst snd]; try done.
  - split; destruct s; cbn; by apply lang_ok_flip.
  - split; [|done]. destruct s; cbn; by apply lang_ok_flip.
  - split; [done|]. destruct s; cbn; by apply lang_ok_flip.
Qed.

(** X9: the languages of the main window are always English or
    Japanese, each of them, under every sequence of events; and the swap
    button changes each one to the other language, which exchanges the
    two when they differ, and leaves them equal to each other when the
    language buttons had made them equal. *)
Theorem main_window_languages (parseInt : jsstring -> option Z)
    (prefersDark : bool) (storage : gmap jsstring jsstring)
    (evs : list App.event) :
  let s := fst (App.run evs (App.start parseInt prefersDark storage)) in
  let s' := App.handleSwapLanguages s in
  (lang_ok (App.sourceLang s) /\ lang_ok (App.targetLang s))
  /\ (if strict_eq (App.sourceLang s) (App.targetLang s)
      then App.sourceLang s' = App.targetLang s'
           /\ App.sourceLang s' <> App.sourceLang s
      else App.sourceLang s' = App.targetLang s
           /\ App.targetLang s' = App.sourceLang s).
Proof.
  cbv zeta.
  assert (Hinv : lang_ok
            (App.sourceLang
               (fst (App.run evs (App.start parseInt prefersDark storage))))
          /\ lang_ok
               (App.targetLang
                  (fst (App.run evs (App.start parseInt prefersDark storage))))).
  { assert (H0 : lang_ok (App.sourceLang
                            (fst (App.start parseInt prefersDark storage)))
                 /\ lang_ok (App.targetLang
                               (fst (App.start parseInt prefersDark storage))))
      by (split; [by left|by right]).
    revert H0. generalize (App.start parseInt prefersDark storage) as se.
    induction evs as [|ev evs IH]; intros [s e] H0; [done|].
    cbn [App.run fold_left].
    destruct (App.step ev (s, e)) as [s1 e1] eqn:Hstep.
    apply (IH (s1, e1)). change s1 with (fst (s1, e1)). rewrite <- Hstep.
    by apply app_languages_ok_step. }
  split; [done|].
  destruct Hinv as [Hs Ht].
  destruct (fst (App.run evs _)) as [? ? src tgt ? ? ? ? ? ? ?].
  cbn in Hs, Ht |- *.
  destruct Hs as [-> | ->], Ht as [-> | ->]; by vm_compute.
Qed.

Lemma popup_languages_step (ev : Popup.event) (s : Popup.state) (e : env) :
  let s' := fst (Popup.step ev (s, e)) in
  (Popup.sourceLang s', Popup.targetLang s') =
  match ev with
  | Popup.Swap => (Popup.targetLang s, Popup.sourceLang s)
  | _ => (Popup.sourceLang s, Popup.targetLang s)
  end.
Proof.
  cbv zeta. unfold Popup.step.
  destruct (rendered_languages (fst (s, e)) (Popup.handle ev (s, e)))
    as (-> & -> & _).
  destruct ev as [payload|chunk is_last|payload|err| | | | |i|w|line| | ];
    cbn [Popup.handle fst].
  - unfold Popup.on_popup_data, Popup.translateText.
    destruct (negb (truthy (trim payload))); by destruct s.
  - unfold Popup.on_translation_event_popup.
    destruct is_last, (truthy chunk); by destruct s.
  - by destruct s.
  - by destruct s.
  - done.
  - unfold Popup.ctrl_enter, Popup.translateText.
    destruct (truthy (Popup.text s)); [|done].
    destruct (negb (truthy (trim (Popup.text s)))); by destruct s.
  - unfold Popup.cycleMode, Popup.translateText.
    destruct (Popup.nextMode _); [|done].
    destruct (truthy (Popup.text s)); [|by destruct s].
    destruct (negb (truthy (trim (Popup.text s)))); by destruct s.
  - unfold Popup.handleSwap, Popup.translateText.
    destruct (truthy (Popup.text s)); [|by destruct s].
    destruct (negb (truthy (trim (Popup.text s)))); by destruct s.
  - unfold Popup.select_model, Popup.translateText.
    destruct (Popup.menu_options !! i); [|done].
    destruct (truthy (Popup.text s)); [|by destruct s].
    destruct (negb (truthy (trim (Popup.text s)))); by destruct s.
  - unfold Popup.handleWheel. destruct (Popup.ctrlKey w); by destruct s.
  - by destruct s.
  - by destruct s.
  - by destruct s.
Qed.

(** X10: in the popup the two languages are always English and Japanese,
    one each: under every sequence of events the pair is English to
    Japanese or Japanese to English, and a swap exchanges the two, so that
    two swaps give the pair back. *)
Theorem popup_languages (storage : gmap jsstring jsstring)
    (evs : list Popup.event) (p : Popup.state) (e : env) :
  let s := fst (Popup.run evs (Popup.start storage)) in
  let once := Popup.step Popup.Swap (p, e) in
  let twice := Popup.step Popup.Swap once in
  ((Popup.sourceLang s = js "English" /\ Popup.targetLang s = js "Japanese")
   \/ (Popup.sourceLang s = js "Japanese" /\ Popup.targetLang s = js "English"))
  /\ (Popup.sourceLang (fst once) = Popup.targetLang p
      /\ Popup.targetLang (fst once) = Popup.sourceLang p)
  /\ (Popup.sourceLang (fst twice) = Popup.sourceLang p
      /\ Popup.targetLang (fst twice) = Popup.targetLang p).
Proof.
  cbv zeta. split_and!.
  - assert (H0 : Popup.sourceLang (fst (Popup.start storage)) = js "English"
                 /\ Popup.targetLang (fst (Popup.start storage))
                    = js "Japanese").
    { unfold Popup.start, Popup.mount. cbn [fst].
      destruct (getItem (js "theme") (fresh storage)) as [t|]; [|done].
      by destruct (truthy t). }
    assert (H1 : (Popup.sourceLang (fst (Popup.start storage)) = js "English"
                  /\ Popup.targetLang (fst (Popup.start storage))
                     = js "Japanese")
                 \/ (Popup.sourceLang (fst (Popup.start storage))
                     = js "Japanese"
                     /\ Popup.targetLang (fst (Popup.start storage))
                        = js "English")) by by left.
    clear H0. revert H1. generalize (Popup.start storage) as se.
    induction evs as [|ev evs IH]; intros [s e0] H0; [done|].
    cbn [Popup.run fold_left].
    destruct (Popup.step ev (s, e0)) as [s1 e1] eqn:Hstep.
    apply (IH (s1, e1)).
    pose proof (popup_languages_step ev s e0) as Hl. cbv zeta in Hl.
    rewrite Hstep in Hl. cbn [fst] in *.
    destruct ev; injection Hl as -> ->; try done. tauto.
  - pose proof (popup_languages_step Popup.Swap p e) as Hl.
    cbv iota zeta in Hl. by injection Hl.
  - pose proof (popup_languages_step Popup.Swap p e) as Hl.
    cbv iota zeta in Hl. by injection Hl.
  - pose proof (popup_languages_step Popup.Swap p e) as Hl.
    cbv iota zeta in Hl.
    destruct (Popup.step Popup.Swap (p, e)) as [p1 e1].
    pose proof (popup_languages_step Popup.Swap p1 e1) as Hl2.
    cbv iota zeta in Hl2. cbn [fst] in *.
    injection Hl as Ha Hb. injection Hl2 as Hc Hd. congruence.
  - pose proof (popup_languages_step Popup.Swap p e) as Hl.
    cbv iota zeta in Hl.
    destruct (Popup.step Popup.Swap (p, e)) as [p1 e1].
    pose proof (popup_languages_step Popup.Swap p1 e1) as Hl2.
    cbv iota zeta in Hl2. cbn [fst] in *.
    injection Hl as Ha Hb. injection Hl2 as Hc Hd. congruence.
Qed.

(** ** The popup: log lines, loading, the stored default *)

Lemma popup_logs_step (ev : Popup.event) (s : Popup.state) (e : env) :
  Popup.logs (fst (Popup.step ev (s, e))) =
  match ev with
  | Popup.PopupData _ => []
  | Popup.DebugLog line => slice_last 4 (Popup.logs s) ++ [line]
  | _ => Popup.logs s
  end.
Proof.
  unfold Popup.step.
  destruct (rendered_languages (fst (s, e)) (Popup.handle ev (s, e)))
    as (_ & _ & ->).
  destruct ev as [payload|chunk is_last|payload|err| | | | |i|w|line| | ];
    cbn [Popup.handle fst].
  - unfold Popup.on_popup_data, Popup.translateText.
    destruct (negb (truthy (trim payload))); by destruct s.
  - unfold Popup.on_translation_event_popup.
    destruct is_last, (truthy chunk); by destruct s.
  - by destruct s.
  - by destruct s.
  - done.
  - unfold Popup.ctrl_enter, Popup.translateText.
    destruct (truthy (Popup.text s)); [|done].
    destruct (negb (truthy (trim (Popup.text s)))); by destruct s.
  - unfold Popup.cycleMode, Popup.translateText.
    destruct (Popup.nextMode _); [|done].
    destruct (truthy (Popup.text s)); [|by destruct s].
    destruct (negb (truthy (trim (Popup.text s)))); by destruct s.
  - unfold Popup.handleSwap, Popup.translateText.
    destruct (truthy (Popup.text s)); [|by destruct s].
    destruct (negb (truthy (trim (Popup.text s)))); by destruct s.
  - unfold Popup.select_model, Popup.translateText.
    destruct (Popup.menu_options !! i); [|done].
    destruct (truthy (Popup.text s)); [|by destruct s].
    destruct (negb (truthy (trim (Popup.text s)))); by destruct s.
  - unfold Popup.handleWheel. destruct (Popup.ctrlKey w); by destruct s.
  - by destruct s.
  - by destruct s.
  - by destruct s.
Qed.

Lemma slice_last_length (n : nat) (xs : list jsstring) :
  length (slice_last n xs) = Nat.min n (length xs).
Proof. unfold slice_last. rewrite length_drop. lia. Qed.

(** X11: the popup keeps the last five log lines and no more.  Under
    every sequence of events it holds at most five lines; a new line goes
    last, behind the last four of the lines held before, whatever state
    the popup is in. *)
Theorem popup_keeps_five_log_lines (storage : gmap jsstring jsstring)
    (evs : list Popup.event) (line : jsstring) (p : Popup.state) (e : env) :
  let logged := Popup.logs (fst (Popup.step (Popup.DebugLog line) (p, e))) in
  (length (Popup.logs (fst (Popup.run evs (Popup.start storage)))) <= 5)%nat
  /\ logged = drop (length (Popup.logs p) - 4) (Popup.logs p) ++ [line]
  /\ (length logged <= 5)%nat
  /\ (length logged = S (length (Popup.logs p))
      \/ length (Popup.logs p) >= 5)%nat.
Proof.
  cbv zeta. rewrite (popup_logs_step (Popup.DebugLog line)).
  split_and!.
  - assert (H0 : (length (Popup.logs (fst (Popup.start storage))) <= 5)%nat).
    { unfold Popup.start, Popup.mount. cbn [fst].
      destruct (getItem (js "theme") (fresh storage)) as [t|]; [|cbn; lia].
      destruct (truthy t); cbn; lia. }
    revert H0. generalize (Popup.start storage) as se.
    induction evs as [|ev evs IH]; intros [s e0] H0; [done|].
    cbn [Popup.run fold_left].
    destruct (Popup.step ev (s, e0)) as [s1 e1] eqn:Hstep.
    apply (IH (s1, e1)). cbn [fst] in *.
    replace s1 with (fst (Popup.step ev (s, e0))) by by rewrite Hstep.
    rewrite popup_logs_step.
    destruct ev; try done.
    + cbn. lia.
    + rewrite length_app, slice_last_length. cbn [length]. lia.
  - done.
  - rewrite length_app, slice_last_length. cbn [length]. lia.
  - rewrite length_app, slice_last_length. cbn [length]. lia.
Qed.

Lemma popup_loading_quiet (ev : Popup.event) (s : Popup.state) (e : env) :
  popup_quiet ev = true -> Popup.loading s = true ->
  Popup.loading (fst (Popup.step ev (s, e))) = true.
Proof.
  intros Hev Hld. unfold Popup.step.
  destruct (rendered_fields (fst (s, e)) (Popup.handle ev (s, e)))
    as (_ & _ & -> & _).
  destruct ev as [payload|chunk [|]|payload|err| | | | |i|w|line| | ];
    try discriminate Hev; cbn [Popup.handle fst].
  - unfold Popup.on_popup_data, Popup.translateText.
    by destruct (negb (truthy (trim payload))).
  - unfold Popup.on_translation_event_popup.
    destruct (truthy chunk); by destruct s.
  - by destruct s.
  - done.
  - unfold Popup.ctrl_enter, Popup.translateText.
    destruct (truthy (Popup.text s)); [|done].
    by destruct (negb (truthy (trim (Popup.text s)))).
  - unfold Popup.cycleMode, Popup.translateText.
    destruct (Popup.nextMode _); [|done].
    destruct (truthy (Popup.text s)); [|by destruct s].
    by destruct (negb (truthy (trim (Popup.text s)))).
  - unfold Popup.handleSwap, Popup.translateText.
    destruct (truthy (Popup.text s)); [|by destruct s].
    by destruct (negb (truthy (trim (Popup.text s)))).
  - unfold Popup.select_model, Popup.translateText.
    destruct (Popup.menu_options !! i); [|done].
    destruct (truthy (Popup.text s)); [|by destruct s].
    by destruct (negb (truthy (trim (Popup.text s)))).
  - unfold Popup.handleWheel. destruct (Popup.ctrlKey w); by destruct s.
  - by destruct s.
  - by destruct s.
  - by destruct s.
Qed.

(** X12: blank text handed to the popup leaves it loading.  The listener
    of ["popup-data"] sets [loading] before [translateText] looks at the
    text: for a payload whose trimmed form is empty no translate
    invocation is made, and [loading] stays set under every sequence of
    events that holds neither a final chunk nor the rejection of a
    translate invocation. *)
Theorem blank_popup_data_keeps_loading (payload : jsstring)
    (evs : list Popup.event) (p : Popup.state) (e : env) :
  trim payload = [] ->
  forallb popup_quiet evs = true ->
  let received := Popup.step (Popup.PopupData payload) (p, e) in
  snd received = e
  /\ Popup.text (fst received) = payload
  /\ Popup.loading (fst received) = true
  /\ Popup.loading (fst (Popup.run evs received)) = true.
Proof.
  intros Hblank Hquiet. cbv zeta.
  assert (Hrec : snd (Popup.step (Popup.PopupData payload) (p, e)) = e
                 /\ Popup.text (fst (Popup.step (Popup.PopupData payload) (p, e)))
                    = payload
                 /\ Popup.loading
                      (fst (Popup.step (Popup.PopupData payload) (p, e)))
                    = true).
  { unfold Popup.step.
    destruct (rendered_frame (fst (p, e))
                (Popup.handle (Popup.PopupData payload) (p, e))) as [-> _].
    destruct (rendered_fields (fst (p, e))
                (Popup.handle (Popup.PopupData payload) (p, e)))
      as (-> & _ & -> & _).
    cbn [Popup.handle]. unfold Popup.on_popup_data, Popup.translateText.
    rewrite Hblank. cbn [truthy negb fst snd]. by destruct p. }
  destruct Hrec as (Henv & Htext & Hld). split_and!; try done.
  revert Hld Hquiet.
  generalize (Popup.step (Popup.PopupData payload) (p, e)) as se.
  induction evs as [|ev evs IH]; intros [s e0] Hld Hquiet; [done|].
  cbn [forallb] in Hquiet. apply andb_true_iff in Hquiet as [Hev Hquiet].
  cbn [Popup.run fold_left].
  destruct (Popup.step ev (s, e0)) as [s1 e1] eqn:Hstep.
  apply (IH (s1, e1)); [|done]. change s1 with (fst (s1, e1)).
  rewrite <- Hstep. by apply popup_loading_quiet.
Qed.

Lemma blank_popup_data_keeps_loading_witness :
  let received :=
    Popup.step (Popup.PopupData [0x0020; 0x000A]%N) (Popup.start ∅) in
  trace (snd received) = []
  /\ Popup.loading
       (fst (Popup.run [Popup.CtrlEnter; Popup.Swap; Popup.Chunk (js "x") false]
               received)) = true.
Proof.
  destruct (blank_popup_data_keeps_loading [0x0020; 0x000A]%N
              [Popup.CtrlEnter; Popup.Swap; Popup.Chunk (js "x") false]
              (fst (Popup.start ∅)) (snd (Popup.start ∅)))
    as (Henv & _ & _ & Hld); [reflexivity | reflexivity |].
  split; [|exact Hld].
  change (Popup.start ∅) with (fst (Popup.start ∅), snd (Popup.start ∅)).
  by rewrite Henv.
Defined.

(** X13: the popup takes the stored default model when, and only when,
    it is one of the four modes.  Started on a storage that holds a value
    under ["defaultModel"], it selects that value if it is nano, light,
    balanced or high, and balanced otherwise; with nothing stored it
    selects balanced. *)
Theorem popup_restores_default_model (m : jsstring)
    (storage : gmap jsstring jsstring) :
  Popup.modelId (fst (Popup.start (<[js "defaultModel" := m]> storage)))
  = (if includes Popup.modes m then m else js "balanced")
  /\ Popup.modelId (fst (Popup.start (delete (js "defaultModel") storage)))
     = js "balanced".
Proof.
  assert (Hstart : forall st, Popup.modelId (fst (Popup.start st))
                              = Popup.initial_modelId (fresh st)).
  { intros st. unfold Popup.start, Popup.mount. cbn [fst].
    destruct (getItem (js "theme") (fresh st)) as [t|]; [|done].
    by destruct (truthy t). }
  rewrite !Hstart. unfold Popup.initial_modelId, getItem. cbn [localStorage fresh].
  rewrite lookup_insert_eq, lookup_delete_eq. split; [|done].
  destruct m as [|c m]; [by vm_compute|]. done.
Qed.

(** X14: in the popup every fragment is appended as it comes and the
    final chunk ends [loading].  After a stream that ends with a final
    chunk the translation is what it was before followed by the
    concatenation of the fragments, in order, and [loading] is off; there
    is no placeholder and no text standing in for missing output. *)
Theorem popup_stream (fragments : list jsstring) (final : jsstring)
    (p : Popup.state) (e : env) :
  let r := Popup.run
             (map (fun c => Popup.Chunk (fst c) (snd c))
                (map (fun f => (f, false)) fragments ++ [(final, true)]))
             (p, e) in
  Popup.translation (fst r)
  = Popup.translation p ++ concat (fragments ++ [final])
  /\ Popup.loading (fst r) = false
  /\ snd r = e.
Proof.
  cbv zeta. split_and!.
  - rewrite popup_stream_concatenates, map_app, map_map. cbn [map fst].
    by rewrite map_id.
  - rewrite map_app. cbn [map fst snd]. unfold Popup.run.
    rewrite fold_left_app. cbn [fold_left].
    match goal with |- context [Popup.step _ ?x] => destruct x as [q qe] end.
    unfold Popup.step.
    destruct (rendered_fields (fst (q, qe))
                (Popup.handle (Popup.Chunk final true) (q, qe)))
      as (_ & _ & -> & _).
    cbn [Popup.handle fst]. unfold Popup.on_translation_event_popup.
    destruct (truthy final); by destruct q.
  - generalize (map (fun f : jsstring => (f, false)) fragments
                  ++ [(final, true)]) as chunks.
    intros chunks. revert p.
    induction chunks as [|[c l] chunks IH]; intros p; [done|].
    cbn [map Popup.run fold_left fst snd].
    fold (Popup.run (map (fun c => Popup.Chunk (fst c) (snd c)) chunks)).
    destruct (Popup.step (Popup.Chunk c l) (p, e)) as [p1 e1] eqn:Hstep.
    assert (He : e1 = e).
    { change e1 with (snd (p1, e1)). rewrite <- Hstep. unfold Popup.step.
      by destruct (rendered_frame (fst (p, e))
                     (Popup.handle (Popup.Chunk c l) (p, e))) as [-> _]. }
    subst e1. apply IH.
Qed.

(** X15: a popup opened on the storage of the main window starts with
    the theme of the main window.  Whatever happened in the main window,
    the popup that renders first on the storage it left takes its
    theme. *)
Theorem popup_starts_with_main_theme (parseInt : jsstring -> option Z)
    (prefersDark : bool) (storage : gmap jsstring jsstring)
    (evs : list App.event) :
  let main := App.run evs (App.start parseInt prefersDark storage) in
  Popup.theme (fst (Popup.start (localStorage (snd main))))
  = App.theme (fst main).
Proof.
  cbv zeta.
  set (main := App.run evs (App.start parseInt prefersDark storage)).
  pose proof (popup_effect_reads_main_theme parseInt prefersDark storage evs
                (Popup.init (fresh (localStorage (snd main))))) as H.
  cbv zeta in H. fold main in H. rewrite <- H.
  unfold Popup.start, Popup.mount, getItem. by cbn [fst localStorage fresh].
Qed.

(** X16: the main window takes the stored font size as it is.  When
    [parseInt] reads an integer from the stored value, the window starts
    with that size, within the bounds or not; the first Ctrl+wheel event
    brings it within [12, 72]. *)
Theorem restored_font_size (parseInt : jsstring -> option Z)
    (prefersDark : bool) (storage : gmap jsstring jsstring)
    (v : jsstring) (n : Z) (deltaY : Q) :
  truthy v = true ->
  parseInt v = Some n ->
  let r := App.start parseInt prefersDark (<[js "fontSize" := v]> storage) in
  App.fontSize (fst r) = n
  /\ main_bounds
       (App.fontSize
          (fst (App.step (App.WheelMoved (App.Wheel true deltaY)) r))).
Proof.
  intros Hv Hn. cbv zeta. split.
  - unfold App.start, App.init, App.initial_fontSize, getItem.
    cbn [fst App.fontSize localStorage fresh].
    by rewrite lookup_insert_eq, Hv, Hn.
  - destruct (App.start parseInt prefersDark _) as [s e].
    rewrite app_fontSize_step, app_handleWheel_size.
    unfold main_bounds. cbn [App.ctrlKey]. lia.
Qed.

Lemma restored_font_size_witness :
  let r := App.start (fun _ => Some 100) true (<[js "fontSize" := js "100"]> ∅) in
  App.fontSize (fst r) = 100
  /\ main_bounds
       (App.fontSize
          (fst (App.step (App.WheelMoved (App.Wheel true 1)) r))).
Proof.
  apply (restored_font_size (fun _ => Some 100) true ∅ (js "100") 100 1);
    reflexivity.
Defined.

(** ** Idle time that adds up *)

Lemma time_passed_nonneg (evs : list App.event) : 0 <= time_passed evs.
Proof.
  induction evs as [|ev evs IH]; [done|]. destruct ev; cbn [time_passed]; lia.
Qed.

(** An idle event other than the passing of time leaves the clock and
    the timers alone and unloads nothing. *)
Lemma idle_step_env (ev : App.event) (s : App.state) (e : env) :
  idle_event ev = true ->
  match ev with
  | App.Elapsed _ => True
  | _ =>
      clock (snd (App.step ev (s, e))) = clock e
      /\ timers (snd (App.step ev (s, e))) = timers e
      /\ unloads (trace (snd (App.step ev (s, e)))) = unloads (trace e)
  end.
Proof.
  intros Hev.
  destruct ev as [text| | |err| | |chunk [|]| |i| |w|dt|payload| | | | | ];
    try discriminate Hev; cbn [App.step snd]; try done.
  - unfold App.cycleMode. by destruct (App.nextMode _).
  - unfold App.toggleTheme. cbn [snd].
    destruct (strict_eq _ (App.theme s)); [done|].
    unfold App.theme_effect, emit, record, setItem. cbn [clock timers trace].
    split_and!; try done. rewrite unloads_app. cbn. lia.
Qed.

Lemma idle_run_no_timer (mid : list App.event) (s : App.state) (e : env) :
  forallb idle_event mid = true -> timers e = [] ->
  timers (snd (App.run mid (s, e))) = []
  /\ unloads (trace (snd (App.run mid (s, e)))) = unloads (trace e).
Proof.
  revert s e. induction mid as [|ev mid IH]; intros s e Hidle Hts; [done|].
  cbn [forallb] in Hidle. apply andb_true_iff in Hidle as [Hev Hidle].
  cbn [App.run fold_left]. fold (App.run mid (App.step ev (s, e))).
  destruct (App.step ev (s, e)) as [s1 e1] eqn:Hstep.
  assert (Hnext : timers e1 = [] /\ unloads (trace e1) = unloads (trace e)).
  { pose proof (idle_step_env ev s e Hev) as Henv. rewrite Hstep in Henv.
    cbn [snd] in Henv.
    destruct ev; try (destruct Henv as (_ & -> & ->); by rewrite Hts).
    cbn [App.step] in Hstep. injection Hstep as <- <-.
    destruct (advance_frame dt e) as (_ & -> & _).
    rewrite advance_exact, unloads_app, Hts. cbn. split; [done|lia]. }
  destruct Hnext as [Hts1 Hun1].
  destruct (IH s1 e1 Hidle Hts1) as [-> ->]. by rewrite Hun1.
Qed.

Lemma idle_run_one_timer (mid : list App.event) (s : App.state) (e : env)
    (t : timer) :
  forallb idle_event mid = true -> timers e = [t] -> clock e < due t ->
  let r := App.run mid (s, e) in
  let fired := due t <=? clock e + time_passed mid in
  timers (snd r) = (if fired then [] else [t])
  /\ unloads (trace (snd r))
     = (unloads (trace e) + (if fired then 1 else 0))%nat.
Proof.
  revert s e. induction mid as [|ev mid IH]; intros s e Hidle Hts Hdue;
    cbv zeta.
  - cbn [App.run fold_left snd time_passed].
    assert (Hno : (due t <=? clock e + 0) = false) by (apply Z.leb_gt; lia).
    rewrite Hno. split; [done|lia].
  - cbn [forallb] in Hidle. apply andb_true_iff in Hidle as [Hev Hidle].
    cbn [App.run fold_left]. fold (App.run mid (App.step ev (s, e))).
    pose proof (time_passed_nonneg mid) as Hpos.
    destruct (App.step ev (s, e)) as [s1 e1] eqn:Hstep.
    pose proof (idle_step_env ev s e Hev) as Henv. rewrite Hstep in Henv.
    cbn [snd] in Henv.
    destruct ev as [text| | |err| | |chunk is_last| |i| |w|dt|payload| | | | | ];
      try discriminate Hev;
      try (cbn [time_passed]; destruct Henv as (Hc & Ht & Hu);
           rewrite Hts in Ht; rewrite <- Hc in Hdue;
           destruct (IH s1 e1 Hidle Ht Hdue) as [G1 G2];
           cbv zeta in G1, G2; by rewrite G1, G2, Hc, Hu).
    clear Henv. cbn [App.step] in Hstep. injection Hstep as <- <-.
    cbn [time_passed].
    destruct (advance_frame dt e) as (_ & Hts1 & Hclock & _).
    rewrite Hts in Hts1. cbn [List.filter] in Hts1. unfold expired in Hts1.
    destruct (due t <=? clock e + Z.of_N dt) eqn:Hnow.
    + cbn [negb] in Hts1.
      destruct (idle_run_no_timer mid s (advance dt e) Hidle Hts1)
        as [-> ->].
      rewrite advance_exact, unloads_app, Hts. cbn [List.filter].
      unfold expired. rewrite Hnow. apply Z.leb_le in Hnow.
      assert (Hall : (due t <=? clock e + (Z.of_N dt + time_passed mid))
                     = true) by (apply Z.leb_le; lia).
      rewrite Hall, unloads_fired. by split.
    + cbn [negb] in Hts1. apply Z.leb_gt in Hnow.
      assert (Hdue1 : clock (advance dt e) < due t) by (rewrite Hclock; lia).
      destruct (IH s (advance dt e) Hidle Hts1 Hdue1) as [G1 G2].
      cbv zeta in G1, G2. rewrite G1, G2, Hclock.
      replace (clock e + Z.of_N dt + time_passed mid)
        with (clock e + (Z.of_N dt + time_passed mid)) by lia.
      rewrite advance_exact, unloads_app, Hts. cbn [List.filter].
      unfold expired.
      assert (Hnot : (due t <=? clock e + Z.of_N dt) = false)
        by (apply Z.leb_gt; lia).
      rewrite Hnot. cbn. split; [done|lia].
Qed.

(** X17: the idle time adds up across events.  After the end of a
    session in the main window, whatever happened before, and through any
    sequence of events that neither hand in a translation nor end a
    session (typing, the wheel, the theme, the menus, log lines, time
    passing in any number of steps), [unload_model] has been invoked once
    more exactly when the time passed has reached 30,000 ms, and then no
    timer is pending; before that none has been invoked and the timer is
    still pending. *)
Theorem idle_time_adds_up (parseInt : jsstring -> option Z)
    (prefersDark : bool) (storage : gmap jsstring jsstring)
    (history : list App.event) (ev : App.event) (mid : list App.event) :
  ends_session ev = true ->
  forallb idle_event mid = true ->
  let ended :=
    App.step ev (App.run history (App.start parseInt prefersDark storage)) in
  let r := App.run mid ended in
  if 30000 <=? time_passed mid
  then unloads (trace (snd r)) = S (unloads (trace (snd ended)))
       /\ timers (snd r) = []
  else unloads (trace (snd r)) = unloads (trace (snd ended))
       /\ timers (snd r) = timers (snd ended).
Proof.
  intros Hev Hidle. cbv zeta.
  assert (Hinv : timer_inv
            (App.run history (App.start parseInt prefersDark storage)))
    by apply timer_inv_run, timer_inv_start.
  destruct (ends_session_armed ev _ Hinv Hev) as ((id & Hts & _) & _ & _).
  destruct (App.step ev _) as [s1 e1]. cbn [fst snd] in *.
  assert (Hdue : clock e1 < due (Timer id (clock e1 + 30000) AutoUnload))
    by (cbn [due]; lia).
  destruct (idle_run_one_timer mid s1 e1 _ Hidle Hts Hdue) as [G1 G2].
  cbv zeta in G1, G2. cbn [due] in G1, G2.
  replace (clock e1 + 30000 <=? clock e1 + time_passed mid)
    with (30000 <=? time_passed mid) in G1, G2
    by (destruct (Z.leb_spec 30000 (time_passed mid));
        symmetry; [apply Z.leb_le|apply Z.leb_gt]; lia).
  rewrite G1, G2, Hts.
  destruct (30000 <=? time_passed mid); split; try done; lia.
Qed.

Lemma idle_time_adds_up_witness :
  let ended := App.step (App.Chunk (js "Hi") true) translating_hello in
  unloads
    (trace
       (snd (App.run [App.Elapsed 10000; App.Input (js "next");
                      App.Elapsed 10000; App.ToggleTheme; App.Elapsed 10000]
               ended)))
  = 1%nat
  /\ unloads
       (trace
          (snd (App.run [App.Elapsed 10000; App.Input (js "next");
                         App.Elapsed 19999] ended)))
     = 0%nat.
Proof.
  split.
  - pose proof (idle_time_adds_up (fun _ => None) true ∅
                  [App.Input (js "Hello"); App.CtrlEnter]
                  (App.Chunk (js "Hi") true)
                  [App.Elapsed 10000; App.Input (js "next");
                   App.Elapsed 10000; App.ToggleTheme; App.Elapsed 10000]
                  eq_refl eq_refl) as [H _].
    exact H.
  - pose proof (idle_time_adds_up (fun _ => None) true ∅
                  [App.Input (js "Hello"); App.CtrlEnter]
                  (App.Chunk (js "Hi") true)
                  [App.Elapsed 10000; App.Input (js "next");
                   App.Elapsed 19999]
                  eq_refl eq_refl) as [H _].
    exact H.
Defined.
